(** * Household Archive Catalog: the reconciliation engine of [app.js]

    A shallow embedding of the data-handling methods of [CatalogApp]
    ([loadCatalogData], [mergeDelta], [loadLocalEdits], [applyLocalEdits],
    [addLocalEdit] and the [saveEdit] closure of [setupInlineEditing]),
    followed by the properties of the reconciliation pass
    base -> deltas -> overlay.

    Conventions of the embedding.
    - A parsed JSON document is a [value]; a JS object used as a record is a
      finite map from field names to values, so [Object.assign(t, s)] is the
      left-biased union [s ∪ t].  Key order of objects is not observable by
      the methods embedded here and is not modelled.
    - The documents the engine reads have the shape the code expects
      (a delta is [{added?, updated?, removed?}], an update is
      [{id, set?, box_history_append?}], an overlay is [{edited, timestamp?}]);
      the fields of an item are arbitrary JSON values.  The overlay, which
      comes from storage and may be any JSON value, is also run as stored
      ([applyLocalEdits_stored], [loadCatalogData_stored]).
    - JSON numbers are kept as integers; the engine only tests them for
      truthiness.
    - Every document is parsed afresh by its caller and used once, so two
      documents never share an object, and what [mergeDelta] later does to a
      record it pushed cannot be seen through the delta it came from.
    - [this.items] is threaded explicitly.  A method that can throw returns
      the collection as it stands at the throw together with the completion,
      because the mutations made before a throw are not undone. *)

From Stdlib Require Import Ascii String.
From stdpp Require Import gmap strings list fin_maps pretty.

Local Open Scope string_scope.
Local Open Scope list_scope.
Local Open Scope nat_scope.

(** ** JSON values *)

#[local] Set Warnings "-register-all".

Inductive value : Type :=
  | JNull
  | JBool (b : bool)
  | JNum (n : Z)
  | JStr (s : string)
  | JArr (l : list value)
  | JObj (o : gmap string value).

(** A JS object whose fields hold JSON values. *)
Abbreviation obj := (gmap string value).

(** JS truthiness of a property read; [None] is [undefined]. *)
Definition truthy (v : option value) : bool :=
  match v with
  | None | Some JNull => false
  | Some (JBool b) => b
  | Some (JNum n) => negb (n =? 0)%Z
  | Some (JStr s) => negb (String.eqb s "")
  | Some (JArr _) | Some (JObj _) => true
  end.

(** [x || d] for a property read [x]. *)
Definition or_else (x : option value) (d : value) : value :=
  match x with
  | Some v => if truthy x then v else d
  | None => d
  end.

(** [Object.assign(target, source)]: every own field of [source] overwrites
    the field of the same name in [target]; other fields of [target] stay. *)
Definition Object_assign (target source : obj) : obj := source ∪ target.

(** ** Documents *)

(** An entry of [delta.updated]. *)
Record update : Type := Update {
  u_id : string;
  u_set : option obj;
  box_history_append : option (list value)
}.

(** A delta file; each list may be absent. *)
Record delta : Type := Delta {
  added : option (list obj);
  updated : option (list update);
  removed : option (list string)
}.

(** An entry of [localEdits.edited]. *)
Record edit : Type := Edit {
  e_id : string;
  e_set : obj
}.

Record overlay : Type := Overlay {
  edited : list edit;
  timestamp : option string
}.

(** ** Completions and the collection monad *)

Inductive exn : Type :=
  | TypeError (msg : string).

Inductive completion (A : Type) : Type :=
  | Normal (a : A)
  | Throw (e : exn).
Arguments Normal {A} a.
Arguments Throw {A} e.

(** A computation over [this.items]. *)
Definition M (A : Type) : Type := list obj → list obj * completion A.

Definition ret {A} (a : A) : M A := fun its => (its, Normal a).

Definition bind {A B} (m : M A) (k : A → M B) : M B :=
  fun its =>
    match m its with
    | (its', Normal a) => k a its'
    | (its', Throw e) => (its', Throw e)
    end.

Notation "m ;;; k" := (bind m (fun _ => k))
  (at level 100, right associativity).

(** [l.forEach(f)]: the callbacks run in order; a throw ends the loop. *)
Fixpoint forEach {A} (f : A → M unit) (l : list A) : M unit :=
  match l with
  | [] => ret tt
  | x :: l' => f x ;;; forEach f l'
  end.

(** [if (x) { body }] for an optional list of a document. *)
Definition when_present {A} (x : option A) (body : A → M unit) : M unit :=
  match x with
  | Some a => body a
  | None => ret tt
  end.

(** ** Searching the collection by id *)

(** [item.id] *)
Definition item_id (item : obj) : option value := item !! "id".

(** [item.id === id] for a string [id]. *)
Definition has_id (id : string) (item : obj) : bool :=
  match item_id item with
  | Some (JStr s) => String.eqb s id
  | _ => false
  end.

(** [arr.findIndex(p)]; [None] is the result [-1]. *)
Fixpoint findIndex {A} (p : A → bool) (l : list A) : option nat :=
  match l with
  | [] => None
  | x :: l' => if p x then Some 0 else S <$> findIndex p l'
  end.

(** ** mergeDelta *)

(** [this.items.push(...delta.added)] *)
Definition push_added (a : list obj) : M unit :=
  fun its => (its ++ a, Normal tt).

(** The body of the [updated.forEach] callback once the target is found:
    the item after the callback, and how the callback completes.
    [Object.assign] runs first; then, if [box_history_append] is present,
    [box_history] is defaulted to an empty array when falsy and the new
    entries are pushed.  A truthy [box_history] that is not an array has no
    [push] method: the call throws after the item has been assigned. *)
Definition update_item (u : update) (item : obj) : obj * completion unit :=
  let item1 := Object_assign item (default ∅ (u_set u)) in
  match box_history_append u with
  | None => (item1, Normal tt)
  | Some new =>
      let bh := or_else (item1 !! "box_history") (JArr []) in
      match bh with
      | JArr old => (<["box_history" := JArr (old ++ new)]> item1, Normal tt)
      | _ => (<["box_history" := bh]> item1,
              Throw (TypeError "box_history.push is not a function"))
      end
  end.

(** One callback of [delta.updated.forEach]. *)
Definition apply_update (u : update) : M unit :=
  fun its =>
    match findIndex (has_id (u_id u)) its with
    | None => (its, Normal tt)
    | Some i =>
        match its !! i with
        | None => (its, Normal tt)
        | Some item =>
            let '(item', c) := update_item u item in
            (<[i := item']> its, c)
        end
    end.

(** One callback of [delta.removed.forEach]: [splice(itemIndex, 1)]. *)
Definition apply_remove (itemId : string) : M unit :=
  fun its =>
    match findIndex (has_id itemId) its with
    | None => (its, Normal tt)
    | Some i => (delete i its, Normal tt)
    end.

Definition mergeDelta (d : delta) : M unit :=
  when_present (added d) push_added ;;;
  when_present (updated d) (forEach apply_update) ;;;
  when_present (removed d) (forEach apply_remove).

(** ** The edit overlay *)

(** One callback of [localEdits.edited.forEach] in [applyLocalEdits]:
    [find] the first item with the entry's id; if there is one, assign the
    entry's [set] onto it and mark it [_edited]. *)
Definition apply_edit (e : edit) : M unit :=
  fun its =>
    match findIndex (has_id (e_id e)) its with
    | None => (its, Normal tt)
    | Some i =>
        match its !! i with
        | None => (its, Normal tt)
        | Some item =>
            (<[i := <["_edited" := JBool true]> (Object_assign item (e_set e))]> its,
             Normal tt)
        end
    end.

Definition applyLocalEdits (ov : overlay) : M unit :=
  forEach apply_edit (edited ov).

(** The browser storage behind [localStorage], reduced to the one key the
    application uses.  [broken] storage throws on every access. *)
Record storage : Type := Storage {
  catalog_edits : option string;
  broken : bool
}.

(** The state of a [CatalogApp] that the embedded methods read or write.
    [warnings] collects the [console.warn] lines of a load and
    [error_shown] is the message given to [showError], if any.  The three
    [Set]s are kept as lists in insertion order. *)
Record app : Type := App {
  items : list obj;
  localEdits : overlay;
  catalogVersion : string;
  lastUpdated : string;
  allBoxes : list (option value);
  allCategories : list (option value);
  allPeople : list value;
  warnings : list string;
  error_shown : option string;
  store : storage
}.

Definition with_items (its : list obj) (a : app) : app :=
  App its (localEdits a) (catalogVersion a) (lastUpdated a) (allBoxes a)
      (allCategories a) (allPeople a) (warnings a) (error_shown a) (store a).

Definition with_localEdits (ov : overlay) (a : app) : app :=
  App (items a) ov (catalogVersion a) (lastUpdated a) (allBoxes a)
      (allCategories a) (allPeople a) (warnings a) (error_shown a) (store a).

Definition with_store (s : storage) (a : app) : app :=
  App (items a) (localEdits a) (catalogVersion a) (lastUpdated a) (allBoxes a)
      (allCategories a) (allPeople a) (warnings a) (error_shown a) s.

(** [showError(message)] *)
Definition showError (msg : string) (a : app) : app :=
  App (items a) (localEdits a) (catalogVersion a) (lastUpdated a) (allBoxes a)
      (allCategories a) (allPeople a) (warnings a) (Some msg) (store a).

(** The default overlay [{ edited: [] }] as a JSON value. *)
Definition default_edits : value := JObj {[ "edited" := JArr [] ]}.

(** [arr.find(p)] on the overlay log, as the index of the entry found. *)
Definition find_entry (itemId : string) (es : list edit) : option nat :=
  findIndex (fun e => String.eqb (e_id e) itemId) es.

Section Builtins.

(** Built-ins of the JS runtime the methods call.  [JSON_parse] is [None]
    where [JSON.parse] throws a [SyntaxError].  The argument [now] of the
    methods below stands for [new Date().toISOString()]. *)
Variable JSON_parse : string → option value.
Variable JSON_stringify : overlay → string.
Variable trim : string → string.

(** [loadLocalEdits]: the [catch] turns every throw of [getItem] or
    [JSON.parse] into the default overlay; a [null] or empty stored string
    is falsy and also gives the default. *)
Definition loadLocalEdits (s : storage) : value :=
  if broken s then default_edits
  else
    match catalog_edits s with
    | None => default_edits
    | Some edits =>
        if String.eqb edits "" then default_edits
        else
          match JSON_parse edits with
          | Some v => v
          | None => default_edits
          end
    end.

(** [saveLocalEdits]: a throw of [setItem] is caught and logged. *)
Definition saveLocalEdits (ov : overlay) (s : storage) : storage :=
  if broken s then s
  else Storage (Some (JSON_stringify ov)) (broken s).

(** [addLocalEdit(itemId, field, value)] *)
Definition addLocalEdit (itemId field : string) (v : value) (now : string)
    (a : app) : app :=
  let es := edited (localEdits a) in
  let es2 :=
    match find_entry itemId es with
    | Some i => alter (fun e => Edit (e_id e) (<[field := v]> (e_set e))) i es
    | None => es ++ [Edit itemId (<[field := v]> ∅)]
    end in
  let ov := Overlay es2 (Some now) in
  let s := saveLocalEdits ov (store a) in
  let its :=
    match findIndex (has_id itemId) (items a) with
    | Some i =>
        alter (fun item => <["_edited" := JBool true]> (<[field := v]> item))
              i (items a)
    | None => items a
    end in
  with_store s (with_localEdits ov (with_items its a)).

(** The [saveEdit] closure of [setupInlineEditing], the only caller of
    [addLocalEdit]: [currentValue] is the trimmed text shown before the
    edit and [inputValue] the content of the input box on blur.  The
    writes to the DOM are not part of the state. *)
Definition saveEdit (itemId fieldName currentValue inputValue now : string)
    (a : app) : app :=
  let newValue := trim inputValue in
  if negb (String.eqb newValue "") && negb (String.eqb newValue currentValue)
  then addLocalEdit itemId fieldName (JStr newValue) now a
  else a.

End Builtins.

(** ** loadCatalogData *)

(** [items.base.json] *)
Record base_doc : Type := BaseDoc {
  b_items : option (list obj);
  catalog_version : option string
}.

(** [updates_index.json] *)
Record manifest : Type := Manifest {
  deltas : option (list string);
  last_updated : option string
}.

(** What [fetch(..).json()] yields for each resource; [None] when the fetch
    rejects or the body does not parse as the expected document. *)
Record world : Type := World {
  base_file : option base_doc;
  index_file : option manifest;
  delta_file : string → option delta
}.

(** [s || d] for an optional string field. *)
Definition str_or (x : option string) (d : string) : string :=
  match x with
  | Some s => if String.eqb s "" then d else s
  | None => d
  end.

Definition delta_warning (deltaFile : string) : string :=
  String.append "Could not load delta: " deltaFile.

(** The [for (const deltaFile of updatesIndex.deltas || [])] loop with its
    inner [try]/[catch]: a delta that cannot be fetched is skipped with a
    warning; a [mergeDelta] that throws is abandoned where it threw, with a
    warning, and the loop goes on. *)
Fixpoint load_deltas (fetch : string → option delta) (files : list string)
    (its : list obj) (ws : list string) : list obj * list string :=
  match files with
  | [] => (its, ws)
  | deltaFile :: files' =>
      match fetch deltaFile with
      | None => load_deltas fetch files' its (ws ++ [delta_warning deltaFile])
      | Some d =>
          match mergeDelta d its with
          | (its', Normal _) => load_deltas fetch files' its' ws
          | (its', Throw _) =>
              load_deltas fetch files' its' (ws ++ [delta_warning deltaFile])
          end
      end
  end.

(** [Set.prototype.add] compares with SameValueZero.  Primitive values are
    compared by content; two arrays or objects of parsed documents are
    never the same reference. *)
Definition same_value (x y : value) : bool :=
  match x, y with
  | JNull, JNull => true
  | JBool a, JBool b => Bool.eqb a b
  | JNum a, JNum b => (a =? b)%Z
  | JStr a, JStr b => String.eqb a b
  | _, _ => false
  end.

Definition same_prop (x y : option value) : bool :=
  match x, y with
  | None, None => true
  | Some a, Some b => same_value a b
  | _, _ => false
  end.

Definition set_add {A} (same : A → A → bool) (x : A) (s : list A) : list A :=
  if existsb (same x) s then s else s ++ [x].

Record filters : Type := Filters {
  f_boxes : list (option value);
  f_categories : list (option value);
  f_people : list value
}.

(** The callback of [this.items.forEach] that fills the filter sets.  A
    truthy [people] that is not an array has no [forEach]: the callback
    throws after the box and the category were added. *)
Definition extract_item (item : obj) (fs : filters) : filters * completion unit :=
  let boxes := set_add same_prop (item !! "box_id") (f_boxes fs) in
  let cats := set_add same_prop (item !! "category") (f_categories fs) in
  if truthy (item !! "people") then
    match item !! "people" with
    | Some (JArr ps) =>
        (Filters boxes cats
           (foldl (fun s person => set_add same_value person s) (f_people fs) ps),
         Normal tt)
    | _ =>
        (Filters boxes cats (f_people fs),
         Throw (TypeError "item.people.forEach is not a function"))
    end
  else (Filters boxes cats (f_people fs), Normal tt).

Fixpoint extract_filters (its : list obj) (fs : filters) : filters * completion unit :=
  match its with
  | [] => (fs, Normal tt)
  | item :: its' =>
      match extract_item item fs with
      | (fs', Normal _) => extract_filters its' fs'
      | (fs', Throw e) => (fs', Throw e)
      end
  end.

Definition load_error : string :=
  "Failed to load catalog data. Please check that data files exist.".

Definition no_index_warning : string :=
  "No updates index found, using base data only".

(** [loadCatalogData]: every throw that is not absorbed by one of the two
    inner [try] blocks reaches the outer [catch], which reports
    [load_error]; what was assigned before the throw stays assigned. *)
Definition loadCatalogData (w : world) (a : app) : app :=
  match base_file w with
  | None => showError load_error a
  | Some baseData =>
      let its0 := default [] (b_items baseData) in
      let version := str_or (catalog_version baseData) "1.0.0" in
      let '(its1, ws, updatedLabel) :=
        match index_file w with
        | Some updatesIndex =>
            let '(its, ws) :=
              load_deltas (delta_file w) (default [] (deltas updatesIndex))
                          its0 (warnings a) in
            (its, ws, str_or (last_updated updatesIndex) "N/A")
        | None =>
            (its0, warnings a ++ [no_index_warning],
             str_or (catalog_version baseData) "N/A")
        end in
      let its2 := (applyLocalEdits (localEdits a) its1).1 in
      let '(fs, c) :=
        extract_filters its2
          (Filters (allBoxes a) (allCategories a) (allPeople a)) in
      let a' := App its2 (localEdits a) version updatedLabel
                    (f_boxes fs) (f_categories fs) (f_people fs)
                    ws (error_shown a) (store a) in
      match c with
      | Normal _ => a'
      | Throw _ => showError load_error a'
      end
  end.

(** The state the constructor leaves before [init] runs. *)
Definition new_app (ov : overlay) (s : storage) : app :=
  App [] ov "" "" [] [] [] [] None s.

(** ** The overlay as it comes out of storage *)

(** [this.localEdits] is whatever [loadLocalEdits] returned, any JSON
    value.  [loadCatalogData] above takes it already read as an [overlay];
    the definitions of this part run [applyLocalEdits] and the rest of the
    load on the value itself. *)

(** [v.name] for a value [v] other than [null] and one of the names
    [edited], [id] and [set], which no prototype defines: the field of an
    object, [undefined] for an array or a primitive. *)
Definition prop (v : value) (name : string) : option value :=
  match v with
  | JObj o => o !! name
  | _ => None
  end.

Section StoredOverlay.

(** The UTF-16 code units of a string, each as a string of its own. *)
Variable code_units : string → list string.

(** The own enumerable properties [Object.assign] copies from a source:
    the fields of an object, the elements of an array and the code units
    of a string under their indices; none for [undefined], [null], a
    boolean or a number. *)
Definition own_properties (source : option value) : obj :=
  match source with
  | Some (JObj s) => s
  | Some (JArr l) => list_to_map (imap (fun i v => (pretty i, v)) l)
  | Some (JStr s) =>
      list_to_map (imap (fun i c => (pretty i, JStr c)) (code_units s))
  | _ => ∅
  end.

(** One callback of [localEdits.edited.forEach] on an entry as stored.
    Reading [edit.id] of [null] throws; [i.id === edit.id] compares the two
    reads, [undefined] included. *)
Definition apply_edit_stored (edit : value) : M unit :=
  fun its =>
    match edit with
    | JNull => (its, Throw (TypeError "Cannot read properties of null"))
    | _ =>
        match findIndex (fun i => same_prop (item_id i) (prop edit "id")) its with
        | None => (its, Normal tt)
        | Some i =>
            match its !! i with
            | None => (its, Normal tt)
            | Some item =>
                (<[i := <["_edited" := JBool true]>
                          (Object_assign item
                             (own_properties (prop edit "set")))]> its,
                 Normal tt)
            end
        end
    end.

(** [applyLocalEdits] on the stored value: [this.localEdits.edited.forEach]
    throws unless the value is an object whose [edited] is an array. *)
Definition applyLocalEdits_stored (le : value) : M unit :=
  fun its =>
    match le with
    | JNull => (its, Throw (TypeError "Cannot read properties of null"))
    | _ =>
        match prop le "edited" with
        | Some (JArr es) => forEach apply_edit_stored es its
        | Some JNull =>
            (its, Throw (TypeError "Cannot read properties of null"))
        | None =>
            (its, Throw (TypeError "Cannot read properties of undefined"))
        | _ => (its, Throw (TypeError "edited.forEach is not a function"))
        end
    end.

(** [loadCatalogData] with [this.localEdits] holding the stored value
    [le].  A throw of [applyLocalEdits] reaches the outer [catch] before
    the filter sets are filled. *)
Definition loadCatalogData_stored (w : world) (le : value) (a : app) : app :=
  match base_file w with
  | None => showError load_error a
  | Some baseData =>
      let its0 := default [] (b_items baseData) in
      let version := str_or (catalog_version baseData) "1.0.0" in
      let '(its1, ws, updatedLabel) :=
        match index_file w with
        | Some updatesIndex =>
            let '(its, ws) :=
              load_deltas (delta_file w) (default [] (deltas updatesIndex))
                          its0 (warnings a) in
            (its, ws, str_or (last_updated updatesIndex) "N/A")
        | None =>
            (its0, warnings a ++ [no_index_warning],
             str_or (catalog_version baseData) "N/A")
        end in
      match applyLocalEdits_stored le its1 with
      | (its2, Throw _) =>
          showError load_error
            (App its2 (localEdits a) version updatedLabel
                 (allBoxes a) (allCategories a) (allPeople a)
                 ws (error_shown a) (store a))
      | (its2, Normal _) =>
          let '(fs, c) :=
            extract_filters its2
              (Filters (allBoxes a) (allCategories a) (allPeople a)) in
          let a' := App its2 (localEdits a) version updatedLabel
                        (f_boxes fs) (f_categories fs) (f_people fs)
                        ws (error_shown a) (store a) in
          match c with
          | Normal _ => a'
          | Throw _ => showError load_error a'
          end
      end
  end.

End StoredOverlay.

(** The JSON value of a well-formed overlay entry and of an overlay. *)
Definition edit_value (e : edit) : value :=
  JObj {[ "id" := JStr (e_id e); "set" := JObj (e_set e) ]}.

Definition overlay_value (ov : overlay) : value :=
  JObj (match timestamp ov with
        | Some t => {[ "edited" := JArr (edit_value <$> edited ov);
                       "timestamp" := JStr t ]}
        | None => {[ "edited" := JArr (edit_value <$> edited ov) ]}
        end).



(** ** The filter step of filterItems *)

(** The values of the search box and of the three filter drop-downs. *)
Record filter_controls : Type := Controls {
  searchInput : string;
  boxFilter : string;
  categoryFilter : string;
  peopleFilter : string
}.

(** [arr.join(sep)] once the elements are texts. *)
Fixpoint join_with (sep : string) (l : list string) : string :=
  match l with
  | [] => ""
  | [x] => x
  | x :: l' => String.append x (String.append sep (join_with sep l'))
  end.

(** [item.pub?.name]: [undefined] unless [pub] is an object with the
    field. *)
Definition pub_field (item : obj) (name : string) : option value :=
  match item !! "pub" with
  | Some (JObj o) => o !! name
  | _ => None
  end.

Section FilterStep.

(** Built-ins of the runtime: [String.prototype.toLowerCase] and
    [includes], the code points a string iterates over, and the text of a
    number. *)
Variable toLowerCase : string → string.
Variable str_includes : string → string → bool.
Variable chars : string → list string.
Variable number_text : Z → string.

(** The text [join] gives an element: nothing for [null] and [undefined],
    the string conversion otherwise (an array is joined with commas, an
    object is the text [[object Object]]). *)
Fixpoint element_text (v : value) : string :=
  match v with
  | JNull => ""
  | JBool true => "true"
  | JBool false => "false"
  | JNum n => number_text n
  | JStr s => s
  | JArr l => join_with "," (element_text <$> l)
  | JObj _ => "[object Object]"
  end.

Definition prop_text (x : option value) : string :=
  match x with
  | Some v => element_text v
  | None => ""
  end.

(** [...(x || [])]: the elements of an array, the code points of a string,
    nothing for a falsy value; any other value is not iterable. *)
Definition spread (what : string) (x : option value) : completion (list value) :=
  if truthy x then
    match x with
    | Some (JArr l) => Normal l
    | Some (JStr s) => Normal (JStr <$> chars s)
    | _ => Throw (TypeError (String.append what " is not iterable"))
    end
  else Normal [].

(** The lower-cased text an item is searched in. *)
Definition searchable_text (item : obj) : completion string :=
  match spread "item.captions" (item !! "captions") with
  | Throw e => Throw e
  | Normal captions =>
      match spread "item.people" (item !! "people") with
      | Throw e => Throw e
      | Normal people =>
          match spread "item.tags" (item !! "tags") with
          | Throw e => Throw e
          | Normal tags =>
              match spread "item.pub.names_mentioned"
                           (pub_field item "names_mentioned") with
              | Throw e => Throw e
              | Normal names =>
                  Normal
                    (toLowerCase
                       (join_with " "
                          ([prop_text (item !! "item_name");
                            prop_text (item !! "description");
                            prop_text (item !! "notes");
                            prop_text (item !! "category");
                            prop_text (item !! "box_id");
                            prop_text (item !! "box_friendly")]
                           ++ (element_text <$> captions)
                           ++ (element_text <$> people)
                           ++ (element_text <$> tags)
                           ++ [prop_text (pub_field item "publication_name")]
                           ++ (element_text <$> names))))
              end
          end
      end
  end.

(** [!item.people || !item.people.includes(peopleFilter)]: an array is
    asked for the exact name, a string for the name as a substring; other
    truthy values have no [includes]. *)
Definition people_mismatch (item : obj) (name : string) : completion bool :=
  if truthy (item !! "people") then
    match item !! "people" with
    | Some (JArr l) => Normal (negb (existsb (same_value (JStr name)) l))
    | Some (JStr s) => Normal (negb (str_includes s name))
    | _ => Throw (TypeError "item.people.includes is not a function")
    end
  else Normal true.

(** The callback of [this.items.filter]; [searchTerm] is the lower-cased
    content of the search box. *)
Definition filter_callback (c : filter_controls) (item : obj) : completion bool :=
  let searchTerm := toLowerCase (searchInput c) in
  let search :=
    if negb (String.eqb searchTerm "") then
      match searchable_text item with
      | Throw e => Throw e
      | Normal text => Normal (str_includes text searchTerm)
      end
    else Normal true in
  match search with
  | Throw e => Throw e
  | Normal false => Normal false
  | Normal true =>
      if negb (String.eqb (boxFilter c) "")
         && negb (same_prop (item !! "box_id") (Some (JStr (boxFilter c))))
      then Normal false
      else if negb (String.eqb (categoryFilter c) "")
              && negb (same_prop (item !! "category")
                                 (Some (JStr (categoryFilter c))))
      then Normal false
      else if negb (String.eqb (peopleFilter c) "") then
        match people_mismatch item (peopleFilter c) with
        | Throw e => Throw e
        | Normal true => Normal false
        | Normal false => Normal true
        end
      else Normal true
  end.

(** [this.items.filter(callback)]: the items the callback keeps, in order;
    a throw of the callback ends the call and nothing is assigned.  This is
    the list [sortItems] then reorders in place; the locale-dependent
    ordering is not part of the step. *)
Fixpoint filter_step (c : filter_controls) (its : list obj)
    : completion (list obj) :=
  match its with
  | [] => Normal []
  | item :: its' =>
      match filter_callback c item with
      | Throw e => Throw e
      | Normal keep =>
          match filter_step c its' with
          | Throw e => Throw e
          | Normal kept => Normal (if keep then item :: kept else kept)
          end
      end
  end.

End FilterStep.

(** ** Predicates used in the statements *)

(** The item an overlay entry leaves behind. *)
Definition edited_item (e : edit) (item : obj) : obj :=
  <["_edited" := JBool true]> (Object_assign item (e_set e)).

Definition ids (its : list obj) : list (option value) := item_id <$> its.

(** Some item of the collection has the string id [x]. *)
Definition id_in (x : string) (its : list obj) : bool := existsb (has_id x) its.

(** How many items of the collection have the string id [x]. *)
Fixpoint count_id (x : string) (its : list obj) : nat :=
  match its with
  | [] => 0
  | item :: its' => (if has_id x item then 1 else 0) + count_id x its'
  end.

(** No two values of the list are equal under [===]. *)
Fixpoint distinct (l : list (option value)) : bool :=
  match l with
  | [] => true
  | x :: l' => negb (existsb (same_prop x) l') && distinct l'
  end.

(** No two items of the collection share an id. *)
Definition distinct_ids (its : list obj) : bool := distinct (ids its).

(** The entries of [item.box_history] as [mergeDelta] reads them: a missing
    or falsy field counts as no entries; [None] when the field holds a
    truthy value that is not an array. *)
Definition history (item : obj) : option (list value) :=
  match or_else (item !! "box_history") (JArr []) with
  | JArr l => Some l
  | _ => None
  end.

(** The entries of a delta's [updated] list that target the id [x]. *)
Definition updates_for (x : string) (us : list update) : list update :=
  filter (fun u => u_id u = x) us.

(** The callbacks of the given entries run in order on one item. *)
Fixpoint update_all (us : list update) (item : obj) : obj * completion unit :=
  match us with
  | [] => (item, Normal tt)
  | u :: us' =>
      match update_item u item with
      | (item', Normal _) => update_all us' item'
      | (item', Throw e) => (item', Throw e)
      end
  end.

(** The deltas of a manifest that could be fetched, in manifest order. *)
Definition fetched (fetch : string → option delta) (files : list string)
    : list delta :=
  omap fetch files.

Definition manifest_files (w : world) : list string :=
  match index_file w with
  | Some updatesIndex => default [] (deltas updatesIndex)
  | None => []
  end.

Definition fetched_deltas (w : world) : list delta :=
  fetched (delta_file w) (manifest_files w).

(** All records the given deltas add, in order. *)
Definition added_records (ds : list delta) : list obj :=
  ds ≫= (fun d => default [] (added d)).

(** The collection after [mergeDelta] ran on each delta in turn; a delta
    that throws leaves what it had done. *)
Definition replay (ds : list delta) (its : list obj) : list obj :=
  foldl (fun st d => (mergeDelta d st).1) its ds.

(** The update entry does not carry [box_history_append]. *)
Definition no_append (u : update) : bool :=
  match box_history_append u with
  | None => true
  | Some _ => false
  end.

Definition delta_no_append (d : delta) : bool :=
  forallb no_append (default [] (updated d)).

(** What an entry without [box_history_append] does to an item, were it
    run on every item that carries its id. *)
Definition update_matching (u : update) (item : obj) : obj :=
  if has_id (u_id u) item then Object_assign item (default ∅ (u_set u))
  else item.

Definition update_matching_all (us : list update) (item : obj) : obj :=
  foldl (fun item u => update_matching u item) item us.

(** [o === u.id] for the id [o] read from an item. *)
Definition addressed (o : option value) (u : update) : bool :=
  match o with
  | Some (JStr s) => String.eqb s (u_id u)
  | _ => false
  end.

(** The [set]s of the entries addressed to [o], later ones on top of [acc]. *)
Fixpoint merged_for (o : option value) (us : list update) (acc : obj) : obj :=
  match us with
  | [] => acc
  | u :: us' =>
      merged_for o us'
        (if addressed o u then default ∅ (u_set u) ∪ acc else acc)
  end.

(** The update entry does not assign [box_history] through its [set]. *)
Definition keeps_history (u : update) : bool :=
  match default ∅ (u_set u) !! "box_history" with
  | None => true
  | Some _ => false
  end.

(** The field map does not assign [id]. *)
Definition keeps_id (s : obj) : bool :=
  match s !! "id" with
  | None => true
  | Some _ => false
  end.

Definition update_keeps_id (u : update) : bool := keeps_id (default ∅ (u_set u)).

(** No [set] of the delta's [updated] entries assigns [id]. *)
Definition delta_keeps_ids (d : delta) : bool :=
  forallb update_keeps_id (default [] (updated d)).

(** No entry of the overlay assigns [id]. *)
Definition overlay_keeps_ids (ov : overlay) : bool :=
  forallb (fun e => keeps_id (e_set e)) (edited ov).

(** The overlay without its entries for the id [x]. *)
Definition overlay_without (x : string) (ov : overlay) : overlay :=
  Overlay (filter (fun e => e_id e ≠ x) (edited ov)) (timestamp ov).

(** The delta neither assigns ids nor adds a record with the id [x]. *)
Definition delta_avoids (x : string) (d : delta) : bool :=
  delta_keeps_ids d && negb (id_in x (default [] (added d))).

(** The value of field [f] after the [set]s of the given entries were
    assigned in order on top of a record whose field was [old]. *)
Definition written (f : string) (us : list update) (old : option value)
    : option value :=
  foldl (fun acc u =>
           match default ∅ (u_set u) !! f with
           | Some v => Some v
           | None => acc
           end) old us.

(** The entries the given updates append, in order. *)
Definition appended (us : list update) : list value :=
  us ≫= (fun u => default [] (box_history_append u)).

(** The three stages of a delta as the statement words them, by recursion
    on the collection.  [change_first] changes the first item carrying the
    id [x] and [drop_first] takes that item out; the other items stay as
    and where they are. *)
Fixpoint change_first (x : string) (f : obj → obj) (its : list obj)
    : list obj :=
  match its with
  | [] => []
  | item :: its' =>
      if has_id x item then f item :: its'
      else item :: change_first x f its'
  end.

Fixpoint drop_first (x : string) (its : list obj) : list obj :=
  match its with
  | [] => []
  | item :: its' =>
      if has_id x item then its' else item :: drop_first x its'
  end.

(** The record after one update: every top-level field of [set] takes the
    place of the record's field of that name, then the entries of
    [box_history_append], if present, follow those [box_history] then
    holds. *)
Definition stated_update (u : update) (rec : obj) : obj :=
  let merged := default ∅ (u_set u) ∪ rec in
  match box_history_append u with
  | None => merged
  | Some new =>
      <["box_history" := JArr (default [] (history merged) ++ new)]> merged
  end.

(** Added records are pushed, then the updates are applied in order, then
    the removed ids are taken out in order. *)
Definition stated_stages (d : delta) (its : list obj) : list obj :=
  let pushed := its ++ default [] (added d) in
  let changed :=
    foldl (fun st u => change_first (u_id u) (stated_update u) st)
          pushed (default [] (updated d)) in
  foldl (fun st y => drop_first y st) changed (default [] (removed d)).

(** No [updated] entry and no [removed] id of the delta targets the item. *)
Definition untargeted (d : delta) (item : obj) : bool :=
  forallb (fun u => negb (has_id (u_id u) item)) (default [] (updated d))
  && forallb (fun y => negb (has_id y item)) (default [] (removed d)).


(** The people listed by the items, in order. *)
Definition people_of (item : obj) : list value :=
  match item !! "people" with
  | Some (JArr ps) => ps
  | _ => []
  end.

(** What [localEdits.edited.find(e => e.id === itemId)] holds for a field:
    the value recorded for the field of the item, if any. *)
Definition overlay_get (ov : overlay) (itemId field : string) : option value :=
  match find_entry itemId (edited ov) with
  | Some i => edited ov !! i ≫= (fun e => e_set e !! field)
  | None => None
  end.

(** The log [addLocalEdit] leaves: the entry of the item is found and gets
    the field, or a new entry is pushed. *)
Definition record_edit (itemId field : string) (v : value) (es : list edit)
    : list edit :=
  match find_entry itemId es with
  | Some i => alter (fun e => Edit (e_id e) (<[field := v]> (e_set e))) i es
  | None => es ++ [Edit itemId (<[field := v]> ∅)]
  end.

(** What [addLocalEdit] does to the item in memory. *)
Definition memory_edit (field : string) (v : value) (item : obj) : obj :=
  <["_edited" := JBool true]> (<[field := v]> item).

(** The item passes the box and the category drop-downs, where set. *)
Definition box_category_match (c : filter_controls) (item : obj) : bool :=
  (String.eqb (boxFilter c) ""
   || same_prop (item !! "box_id") (Some (JStr (boxFilter c))))
  && (String.eqb (categoryFilter c) ""
      || same_prop (item !! "category") (Some (JStr (categoryFilter c)))).

(** ** Sample documents and runtime built-ins for the examples *)

(** [String.prototype.trim] on ASCII white space. *)
Definition is_space (c : ascii) : bool :=
  match nat_of_ascii c with
  | 9 | 10 | 11 | 12 | 13 | 32 => true
  | _ => false
  end.

Fixpoint trim_start (s : string) : string :=
  match s with
  | EmptyString => EmptyString
  | String c s' => if is_space c then trim_start s' else s
  end.

Definition reverse_string (s : string) : string :=
  string_of_list_ascii (rev (list_ascii_of_string s)).

Definition ascii_trim (s : string) : string :=
  reverse_string (trim_start (reverse_string (trim_start s))).

(** [JSON.parse] on the two documents the examples store. *)
Definition parse_sample (s : string) : option value :=
  if String.eqb s "null" then Some JNull
  else if String.eqb s "[]" then Some (JArr [])
  else None.

Definition stringify_sample (ov : overlay) : string := "[]".

Definition it_1 : obj :=
  {[ "id" := JStr "it_1"; "box_id" := JStr "DO3M" ]}.

Definition it_2 : obj :=
  {[ "id" := JStr "it_2"; "box_id" := JStr "KT2L" ]}.

Definition edit_name : edit :=
  Edit "it_1" {[ "item_name" := JStr "Family letter" ]}.

Definition edit_gone : edit :=
  Edit "it_9" {[ "notes" := JStr "misplaced" ]}.

(** An entry for [it_1] whose [set] assigns the id of [it_2]. *)
Definition edit_rename : edit :=
  Edit "it_1" {[ "id" := JStr "it_2" ]}.

Definition edit_note : edit :=
  Edit "it_2" {[ "notes" := JStr "fragile" ]}.

(** A second entry for [it_1]. *)
Definition edit_name_again : edit :=
  Edit "it_1" {[ "item_name" := JStr "Postcard" ]}.

Definition entry_M_open : value :=
  JObj {[ "box_id" := JStr "DO3M"; "from" := JStr "2025-01-06"; "to" := JNull ]}.

Definition entry_M_closed : value :=
  JObj {[ "box_id" := JStr "DO3M"; "from" := JStr "2025-01-06";
          "to" := JStr "2025-02-01" ]}.

Definition entry_S_open : value :=
  JObj {[ "box_id" := JStr "S"; "from" := JStr "2025-02-01"; "to" := JNull ]}.

Definition item_in_M : obj :=
  {[ "id" := JStr "it_1"; "box_id" := JStr "DO3M";
     "box_history" := JArr [entry_M_open] ]}.

(** Moves [it_1] and appends the new location. *)
Definition update_move : update :=
  Update "it_1" (Some {[ "box_id" := JStr "S" ]}) (Some [entry_S_open]).

(** Moves [it_1], closing the old location through [set]. *)
Definition update_close_and_move : update :=
  Update "it_1"
    (Some {[ "box_id" := JStr "S"; "box_history" := JArr [entry_M_closed] ]})
    (Some [entry_S_open]).

Definition rec_clipping : obj :=
  {[ "id" := JStr "it_3"; "item_name" := JStr "Newspaper clipping";
     "pub" := JObj {[ "publication_name" := JStr "Pleasanton Express";
                      "page_number" := JStr "A3" ]} ]}.

(** Corrects the page of the publication of [it_3]. *)
Definition update_page : update :=
  Update "it_3" (Some {[ "pub" := JObj {[ "page_number" := JStr "A4" ]} ]}) None.

Definition delta_add_update : delta :=
  Delta (Some [rec_clipping]) (Some [update_page]) None.

Definition delta_add_update_remove : delta :=
  Delta (Some [rec_clipping]) (Some [update_page]) (Some ["it_3"]).

(** Adds the record of [it_3] twice, corrects its page and removes it. *)
Definition delta_add_twice : delta :=
  Delta (Some [rec_clipping; rec_clipping]) (Some [update_page])
        (Some ["it_3"]).

(** Adds a record with one location and moves it. *)
Definition delta_add_move : delta :=
  Delta (Some [item_in_M]) (Some [update_move]) None.

(** Adds a record for [it_1] and removes [it_1]. *)
Definition delta_add_remove : delta :=
  Delta (Some [it_1]) None (Some ["it_1"]).

(** A catalog whose one delta adds a record for an id the base holds. *)
Definition world_readded : world :=
  World (Some (BaseDoc (Some [it_1]) (Some "1.0.0")))
        (Some (Manifest (Some ["2025-01-07.json"]) (Some "2025-01-07")))
        (fun f => if String.eqb f "2025-01-07.json"
                  then Some (Delta (Some [it_1]) None None) else None).

(** A catalog whose one delta adds [it_2] and annotates [it_1]. *)
Definition world_sound : world :=
  World (Some (BaseDoc (Some [it_1]) (Some "1.0.0")))
        (Some (Manifest (Some ["2025-01-07.json"]) (Some "2025-01-07")))
        (fun f => if String.eqb f "2025-01-07.json"
                  then Some (Delta (Some [it_2])
                               (Some [Update "it_1"
                                        (Some {[ "notes" := JStr "fragile" ]})
                                        None])
                               None)
                  else None).

Definition fresh_app (ov : overlay) : app := new_app ov (Storage None false).

(** Adds [it_1] and nothing else. *)
Definition delta_add_only : delta := Delta (Some [it_1]) None None.

(** Moves [it_1] and nothing else. *)
Definition delta_move_only : delta := Delta None (Some [update_move]) None.

(** Annotates [it_1] twice and removes [it_2]. *)
Definition delta_annotate_remove : delta :=
  Delta None
        (Some [Update "it_1" (Some {[ "notes" := JStr "fragile" ]}) None;
               Update "it_1" (Some {[ "notes" := JStr "keep flat" ]}) None])
        (Some ["it_2"]).

Definition two_deltas (d1 d2 : delta) : world :=
  World (Some (BaseDoc (Some [it_1]) (Some "1.0.0")))
        (Some (Manifest (Some ["2025-01-07.json"; "2025-01-08.json"])
                        (Some "2025-01-08")))
        (fun f => if String.eqb f "2025-01-07.json" then Some d1
                  else if String.eqb f "2025-01-08.json" then Some d2
                  else None).

(** The first delta adds [it_2], the second removes it. *)
Definition world_removed : world :=
  two_deltas (Delta (Some [it_2]) None None) (Delta None None (Some ["it_2"])).

(** The first delta adds a second record for [it_1], the second removes
    [it_1]. *)
Definition world_added_twice : world :=
  two_deltas (Delta (Some [it_1]) None None) (Delta None None (Some ["it_1"])).

(** The first delta removes [it_1], the second adds it again. *)
Definition world_resurrected : world :=
  two_deltas (Delta None None (Some ["it_1"])) (Delta (Some [it_1]) None None).

Definition edit_removed : edit :=
  Edit "it_2" {[ "notes" := JStr "where is it" ]}.

Definition it_4 : obj :=
  {[ "id" := JStr "it_4"; "box_id" := JStr "DO3M";
     "people" := JArr [JStr "Gloria Mejia"] ]}.

(** A catalog with a base snapshot and no updates index. *)
Definition world_people : world :=
  World (Some (BaseDoc (Some [it_4]) (Some "1.0.0"))) None (fun _ => None).

(** What the inline editor records when the people of [it_4] are edited. *)
Definition edit_people : edit :=
  Edit "it_4" {[ "people" := JStr "Gloria Mejia, Stephen Foster" ]}.

Definition item_odd_history : obj :=
  {[ "id" := JStr "it_5"; "box_history" := JStr "DO3M since January" ]}.

(** Appends to the history of [it_5] and removes [it_1]. *)
Definition delta_append_remove : delta :=
  Delta (Some [it_2])
        (Some [Update "it_5" None (Some [entry_S_open])])
        (Some ["it_1"]).

(** A manifest of two files of which only the second can be fetched. *)
Definition world_one_missing : world :=
  World (Some (BaseDoc (Some [it_1]) (Some "1.0.0")))
        (Some (Manifest (Some ["2025-01-07.json"; "2025-01-08.json"])
                        (Some "2025-01-08")))
        (fun f => if String.eqb f "2025-01-08.json"
                  then Some (Delta (Some [it_2]) None None) else None).

(** ASCII stand-ins for the string built-ins of the filter step. *)
Definition lower_ascii (c : ascii) : ascii :=
  let n := nat_of_ascii c in
  if (65 <=? n) && (n <=? 90) then ascii_of_nat (n + 32) else c.

Fixpoint ascii_lower (s : string) : string :=
  match s with
  | EmptyString => EmptyString
  | String c s' => String (lower_ascii c) (ascii_lower s')
  end.

Fixpoint ascii_includes (s needle : string) : bool :=
  String.prefix needle s
  || match s with
     | EmptyString => false
     | String _ s' => ascii_includes s' needle
     end.

Fixpoint ascii_chars (s : string) : list string :=
  match s with
  | EmptyString => []
  | String c s' => String c EmptyString :: ascii_chars s'
  end.

Definition decimal (n : Z) : string := pretty n.

Definition it_6 : obj :=
  {[ "id" := JStr "it_6"; "box_id" := JStr "DO3M";
     "category" := JStr "Documents"; "item_name" := JStr "School Letter";
     "people" := JArr [JStr "Gloria Mejia"; JStr "Stephen Foster"] ]}.

Definition it_7 : obj :=
  {[ "id" := JStr "it_7"; "box_id" := JStr "KT2L";
     "category" := JStr "Kitchen"; "item_name" := JStr "Tea pot" ]}.

(** * Properties *)

(** ** The collection monad *)

Lemma bind_normal {A B} (m : M A) (k : A → M B) its its' a :
  m its = (its', Normal a) → bind m k its = k a its'.
Proof. unfold bind. by intros ->. Qed.

(** ** findIndex *)

Lemma findIndex_Some {A} (p : A → bool) l i :
  findIndex p l = Some i → ∃ x, l !! i = Some x ∧ p x = true.
Proof.
  revert i. induction l as [|y l IH]; intros i; simpl; [done|].
  destruct (p y) eqn:Hp.
  - intros [= <-]. by exists y.
  - destruct (findIndex p l) as [j|]; simpl; [|done].
    intros [= <-]. by apply IH.
Qed.

Lemma findIndex_None {A} (p : A → bool) l :
  findIndex p l = None ↔ existsb p l = false.
Proof.
  induction l as [|y l IH]; simpl; [done|].
  destruct (p y); simpl; [done|].
  destruct (findIndex p l); simpl; [|tauto].
  split; [done|]. intros H. by apply IH in H.
Qed.

(** ** Entries that target an absent id *)

Lemma apply_update_absent u its :
  id_in (u_id u) its = false → apply_update u its = (its, Normal tt).
Proof.
  intros H. apply findIndex_None in H. unfold apply_update. by rewrite H.
Qed.

Lemma apply_remove_absent x its :
  id_in x its = false → apply_remove x its = (its, Normal tt).
Proof.
  intros H. apply findIndex_None in H. unfold apply_remove. by rewrite H.
Qed.

Lemma apply_edit_absent e its :
  id_in (e_id e) its = false → apply_edit e its = (its, Normal tt).
Proof.
  intros H. apply findIndex_None in H. unfold apply_edit. by rewrite H.
Qed.

(** A loop whose every callback is a no-op on [its] is a no-op on [its]. *)
Lemma forEach_noop {A} (f : A → M unit) l its :
  (∀ x, x ∈ l → f x its = (its, Normal tt)) →
  forEach f l its = (its, Normal tt).
Proof.
  induction l as [|x l IH]; intros H; simpl; [done|].
  unfold bind. rewrite H; [|by left].
  apply IH. intros y Hy. apply H. by right.
Qed.

(** C10. An [updated] entry whose id no item of the collection carries, and
    a [removed] id that no item carries, are each skipped: the callback
    leaves the collection as it is and completes normally, and so does
    [mergeDelta] on a delta that consists of that entry. *)
Theorem absent_id_is_noop (x : string) (its : list obj) :
  id_in x its = false →
  (∀ u, u_id u = x →
        apply_update u its = (its, Normal tt) ∧
        mergeDelta (Delta None (Some [u]) None) its = (its, Normal tt)) ∧
  apply_remove x its = (its, Normal tt) ∧
  mergeDelta (Delta None None (Some [x])) its = (its, Normal tt).
Proof.
  intros H. split; [|split].
  - intros u <-. pose proof (apply_update_absent u its H) as Hu.
    split; [done|]. unfold mergeDelta. simpl. unfold bind, ret. by rewrite Hu.
  - by apply apply_remove_absent.
  - unfold mergeDelta. simpl. unfold bind, ret.
    by rewrite (apply_remove_absent x its H).
Qed.

Lemma absent_id_is_noop_witness :
  id_in "it_9" [it_1; it_2] = false ∧
  apply_update (Update "it_9" (Some {[ "notes" := JStr "fragile" ]}) (Some []))
    [it_1; it_2] = ([it_1; it_2], Normal tt) ∧
  apply_remove "it_9" [it_1; it_2] = ([it_1; it_2], Normal tt).
Proof.
  assert (H : id_in "it_9" [it_1; it_2] = false) by reflexivity.
  split; [exact H|].
  destruct (absent_id_is_noop "it_9" [it_1; it_2] H) as (Hu & Hr & _).
  split; [by apply Hu | exact Hr].
Defined.

(** A delta all of whose [updated] and [removed] entries target ids that are
    absent once [added] has been pushed only pushes [added]. *)
Lemma mergeDelta_all_absent (d : delta) (its : list obj) :
  forallb (fun u => negb (id_in (u_id u) (its ++ default [] (added d))))
          (default [] (updated d)) = true →
  forallb (fun r => negb (id_in r (its ++ default [] (added d))))
          (default [] (removed d)) = true →
  mergeDelta d its = (its ++ default [] (added d), Normal tt).
Proof.
  intros Hu Hr. unfold mergeDelta.
  set (its1 := its ++ default [] (added d)) in *.
  assert (Ha : when_present (added d) push_added its = (its1, Normal tt)).
  { unfold its1. destruct (added d); simpl; [done|]. by rewrite app_nil_r. }
  rewrite (bind_normal _ _ _ _ _ Ha).
  assert (Hu' : when_present (updated d) (forEach apply_update) its1
                = (its1, Normal tt)).
  { destruct (updated d) as [us|]; simpl in *; [|done].
    apply forEach_noop. intros u Hin. apply apply_update_absent.
    rewrite forallb_forall in Hu. apply negb_true_iff, Hu.
    by apply list_elem_of_In. }
  rewrite (bind_normal _ _ _ _ _ Hu').
  destruct (removed d) as [rs|]; simpl in *; [|done].
  apply forEach_noop. intros r Hin. apply apply_remove_absent.
  rewrite forallb_forall in Hr. apply negb_true_iff, Hr.
  by apply list_elem_of_In.
Qed.

(** ** Loading and recording local edits *)

Section LoadLocalEdits.

Variable JSON_parse : string → option value.

(** [JSON.parse] rejects the empty text. *)
Hypothesis parse_empty : JSON_parse "" = None.

(** C7. [loadLocalEdits] returns a value for every state of the storage:
    the default empty overlay, the object whose only field is [edited] and
    holds the empty array, when the storage throws, holds nothing under
    the key, or holds a text that does not parse; the parsed value
    otherwise. *)
Theorem loadLocalEdits_total (s : storage) :
  (broken s = true ∨ catalog_edits s = None ∨
   (∃ edits, catalog_edits s = Some edits ∧ JSON_parse edits = None) →
   loadLocalEdits JSON_parse s = JObj {[ "edited" := JArr [] ]} ∧
   ∃ o, loadLocalEdits JSON_parse s = JObj o ∧
        o !! "edited" = Some (JArr []) ∧
        ∀ f, f ≠ "edited" → o !! f = None) ∧
  (∀ edits v,
     broken s = false → catalog_edits s = Some edits →
     JSON_parse edits = Some v →
     loadLocalEdits JSON_parse s = v).
Proof.
  split.
  - intros Hcase.
    assert (Hd : loadLocalEdits JSON_parse s = JObj {[ "edited" := JArr [] ]}).
    { unfold loadLocalEdits. destruct Hcase as [Hb | [Hn | (edits & He & Hp)]].
      + by rewrite Hb.
      + rewrite Hn. by destruct (broken s).
      + rewrite He, Hp. destruct (broken s); [done|].
        by destruct (String.eqb edits ""). }
    split; [exact Hd|]. exists {[ "edited" := JArr [] ]}.
    split; [exact Hd|]. split.
    + apply lookup_singleton_eq.
    + intros f Hf. by apply lookup_singleton_ne.
  - unfold loadLocalEdits. intros edits v Hb He Hp. rewrite Hb, He.
    destruct (String.eqb_spec edits "") as [-> | _].
    + congruence.
    + by rewrite Hp.
Qed.

End LoadLocalEdits.

Lemma loadLocalEdits_total_witness :
  parse_sample "" = None ∧
  loadLocalEdits parse_sample (Storage (Some "{") false)
  = JObj {[ "edited" := JArr [] ]} ∧
  loadLocalEdits parse_sample (Storage None false)
  = JObj {[ "edited" := JArr [] ]} ∧
  loadLocalEdits parse_sample (Storage (Some "[]") true)
  = JObj {[ "edited" := JArr [] ]} ∧
  loadLocalEdits parse_sample (Storage (Some "[]") false) = JArr [].
Proof.
  assert (H : parse_sample "" = None) by reflexivity.
  split; [exact H|].
  split; [|split; [|split]].
  - apply (loadLocalEdits_total parse_sample H (Storage (Some "{") false)).
    right; right. by exists "{".
  - apply (loadLocalEdits_total parse_sample H (Storage None false)).
    right; by left.
  - apply (loadLocalEdits_total parse_sample H (Storage (Some "[]") true)).
    by left.
  - by apply (loadLocalEdits_total parse_sample H (Storage (Some "[]") false))
      with (edits := "[]").
Defined.

(** [addLocalEdit] itself records whatever value it is given; the guard
    against empty values is in its caller [saveEdit]. *)
Lemma addLocalEdit_records stringify itemId field v now a :
  find_entry itemId (edited (localEdits a)) = None →
  edited (localEdits (addLocalEdit stringify itemId field v now a))
  = edited (localEdits a) ++ [Edit itemId {[ field := v ]}].
Proof. intros H. unfold addLocalEdit. simpl. by rewrite H. Qed.

(** The overlay keeps one entry per id: [addLocalEdit] finds the entry of
    the id or creates it. *)
Lemma addLocalEdit_one_entry_per_id stringify itemId field v now a :
  NoDup (e_id <$> edited (localEdits a)) →
  NoDup (e_id <$> edited (localEdits
                            (addLocalEdit stringify itemId field v now a))).
Proof.
  intros Hnd. unfold addLocalEdit, find_entry. simpl.
  destruct (findIndex _ (edited (localEdits a))) as [i|] eqn:Hf.
  - rewrite (list_fmap_alter e_id _ id); [|by apply Forall_forall].
    by rewrite list_alter_id.
  - rewrite fmap_app. apply NoDup_app. split; [done|]. split.
    + intros x Hx Hx'. apply list_elem_of_singleton in Hx'. subst x.
      apply list_elem_of_fmap in Hx as (e & He & Hin).
      apply findIndex_None in Hf.
      assert (existsb (fun e => String.eqb (e_id e) itemId)
                      (edited (localEdits a)) = true); [|congruence].
      apply existsb_exists. exists e. split; [by apply list_elem_of_In|].
      rewrite <- He. apply String.eqb_refl.
    + apply NoDup_singleton.
Qed.

(** C6. An edit whose value is empty after trimming is not recorded:
    [saveEdit] leaves the application state, and so the [edited] log of the
    overlay, as it was. *)
Theorem empty_edit_not_recorded (stringify : overlay → string)
    (trim : string → string)
    (itemId fieldName currentValue inputValue now : string) (a : app) :
  trim inputValue = "" →
  saveEdit stringify trim itemId fieldName currentValue inputValue now a = a ∧
  edited (localEdits
            (saveEdit stringify trim itemId fieldName currentValue inputValue
                      now a))
  = edited (localEdits a).
Proof.
  intros H. unfold saveEdit. rewrite H. simpl. done.
Qed.

Lemma empty_edit_not_recorded_witness :
  ascii_trim "   " = "" ∧
  saveEdit stringify_sample ascii_trim "it_1" "notes" "fragile" "   "
           "2025-01-06T00:00:00.000Z"
           (new_app (Overlay [] None) (Storage None false))
  = new_app (Overlay [] None) (Storage None false).
Proof.
  assert (H : ascii_trim "   " = "") by reflexivity.
  split; [exact H|].
  apply (empty_edit_not_recorded stringify_sample ascii_trim "it_1" "notes"
           "fragile" "   " "2025-01-06T00:00:00.000Z"
           (new_app (Overlay [] None) (Storage None false)) H).
Defined.

(** ** Ids are stable under assignments that do not mention [id] *)

Lemma has_id_item_id x item item' :
  item_id item = item_id item' → has_id x item = has_id x item'.
Proof. unfold has_id. by intros ->. Qed.

Lemma has_id_inj x y item :
  has_id x item = true → has_id y item = true → x = y.
Proof.
  unfold has_id. destruct (item_id item) as [[]|]; try done.
  intros Hx Hy. apply String.eqb_eq in Hx, Hy. congruence.
Qed.

Lemma findIndex_ids x its its' :
  ids its = ids its' →
  findIndex (has_id x) its = findIndex (has_id x) its'.
Proof.
  revert its'. induction its as [|a its IH]; intros [|b its']; simpl; try done.
  intros [= Hab Hrest]. rewrite (has_id_item_id x a b Hab).
  by rewrite (IH its' Hrest).
Qed.

Lemma id_in_ids x its its' : ids its = ids its' → id_in x its = id_in x its'.
Proof.
  revert its'. induction its as [|a its IH]; intros [|b its']; simpl; try done.
  intros [= Hab Hrest]. rewrite (has_id_item_id x a b Hab).
  by rewrite (IH its' Hrest).
Qed.

Lemma count_id_ids x its its' :
  ids its = ids its' → count_id x its = count_id x its'.
Proof.
  revert its'. induction its as [|a its IH]; intros [|b its']; simpl; try done.
  intros [= Hab Hrest]. rewrite (has_id_item_id x a b Hab).
  by rewrite (IH its' Hrest).
Qed.

Lemma ids_insert its i item item' :
  its !! i = Some item → item_id item' = item_id item →
  ids (<[i := item']> its) = ids its.
Proof.
  intros Hi Hid. unfold ids. rewrite list_fmap_insert, Hid.
  apply list_insert_id. by rewrite list_lookup_fmap, Hi.
Qed.

Lemma item_id_assign item s :
  keeps_id s = true → item_id (Object_assign item s) = item_id item.
Proof.
  unfold keeps_id, item_id, Object_assign. intros H.
  destruct (s !! "id") eqn:E; [done|]. by apply lookup_union_r.
Qed.

Lemma item_id_insert f v (item : obj) :
  f ≠ "id" → item_id (<[f := v]> item) = item_id item.
Proof. intros H. unfold item_id. by apply lookup_insert_ne. Qed.

Lemma Object_assign_lookup (item s : obj) f :
  Object_assign item s !! f
  = match s !! f with Some v => Some v | None => item !! f end.
Proof.
  unfold Object_assign. destruct (s !! f) eqn:E.
  - by apply lookup_union_Some_l.
  - by apply lookup_union_r.
Qed.

(** ** applyLocalEdits *)

Lemma apply_edit_present e its i item :
  findIndex (has_id (e_id e)) its = Some i → its !! i = Some item →
  apply_edit e its = (<[i := edited_item e item]> its, Normal tt).
Proof. intros Hf Hi. unfold apply_edit. by rewrite Hf, Hi. Qed.

Lemma apply_edit_cases e its :
  apply_edit e its = (its, Normal tt) ∧ findIndex (has_id (e_id e)) its = None
  ∨ ∃ i item, findIndex (has_id (e_id e)) its = Some i ∧ its !! i = Some item ∧
      apply_edit e its = (<[i := edited_item e item]> its, Normal tt).
Proof.
  unfold apply_edit. destruct (findIndex _ its) as [i|] eqn:Hf; [|by left].
  destruct (findIndex_Some _ _ _ Hf) as (item & Hi & _).
  right. exists i, item. by rewrite Hi.
Qed.

Lemma edited_item_id e item :
  keeps_id (e_set e) = true → item_id (edited_item e item) = item_id item.
Proof.
  intros H. unfold edited_item.
  rewrite item_id_insert by done. by apply item_id_assign.
Qed.

Lemma apply_edit_ids e its :
  keeps_id (e_set e) = true → ids (apply_edit e its).1 = ids its.
Proof.
  intros H. destruct (apply_edit_cases e its) as [[-> _] | (i & item & _ & Hi & ->)].
  - done.
  - simpl. apply (ids_insert _ _ item); [done|]. by apply edited_item_id.
Qed.

Lemma edited_item_fields e item :
  edited_item e item !! "_edited" = Some (JBool true) ∧
  (∀ f v, f ≠ "_edited" → e_set e !! f = Some v →
          edited_item e item !! f = Some v) ∧
  (∀ f, f ≠ "_edited" → e_set e !! f = None →
        edited_item e item !! f = item !! f).
Proof.
  unfold edited_item. split; [by rewrite lookup_insert_eq|].
  split.
  - intros f v Hf Hs. rewrite lookup_insert_ne by done.
    by rewrite Object_assign_lookup, Hs.
  - intros f Hf Hs. rewrite lookup_insert_ne by done.
    by rewrite Object_assign_lookup, Hs.
Qed.

Lemma applyLocalEdits_targets (es : list edit) (its : list obj) :
  NoDup (e_id <$> es) →
  forallb (fun e => keeps_id (e_set e)) es = true →
  ∃ its', forEach apply_edit es its = (its', Normal tt) ∧
    length its' = length its ∧
    (∀ e i item, e ∈ es → findIndex (has_id (e_id e)) its = Some i →
       its !! i = Some item → its' !! i = Some (edited_item e item)) ∧
    (∀ i, (∀ e, e ∈ es → findIndex (has_id (e_id e)) its ≠ Some i) →
       its' !! i = its !! i).
Proof.
  revert its. induction es as [|e0 es IH]; intros its Hnd Hk.
  { exists its. repeat split; try done. intros e i item He. inversion He. }
  simpl in Hk. apply andb_true_iff in Hk as [Hk0 Hk].
  rewrite fmap_cons in Hnd. apply NoDup_cons in Hnd as [Hfresh Hnd].
  assert (Hids : ids (apply_edit e0 its).1 = ids its) by by apply apply_edit_ids.
  assert (Hother : ∀ e, e ∈ es → e_id e ≠ e_id e0).
  { intros e He Heq. apply Hfresh. rewrite <- Heq. by apply list_elem_of_fmap_2. }
  assert (Hapart : ∀ e i, e ∈ es →
            findIndex (has_id (e_id e)) its = Some i →
            findIndex (has_id (e_id e0)) its ≠ Some i).
  { intros e i He Hf Hf0.
    destruct (findIndex_Some _ _ _ Hf) as (x & Hx & Hpx).
    destruct (findIndex_Some _ _ _ Hf0) as (y & Hy & Hpy).
    rewrite Hx in Hy. injection Hy as <-.
    by apply (Hother e He), (has_id_inj _ _ x). }
  destruct (apply_edit_cases e0 its) as [[Hstep Hnone] | (j & old & Hfj & Hj & Hstep)].
  - rewrite Hstep in Hids. simpl in Hids.
    destruct (IH its Hnd Hk) as (its' & Hrun & Hlen & Hhit & Hmiss).
    exists its'. simpl. unfold bind. rewrite Hstep.
    split; [done|]. split; [done|]. split.
    + intros e i item He Hf Hi. apply elem_of_cons in He as [-> | He].
      * congruence.
      * by apply (Hhit e).
    + intros i Hno. apply Hmiss. intros e He. apply Hno. by right.
  - rewrite Hstep in Hids. simpl in Hids.
    destruct (IH (<[j := edited_item e0 old]> its) Hnd Hk)
      as (its' & Hrun & Hlen & Hhit & Hmiss).
    exists its'. simpl. unfold bind. rewrite Hstep.
    split; [done|]. split; [by rewrite Hlen, length_insert|]. split.
    + intros e i item He Hf Hi. apply elem_of_cons in He as [-> | He].
      * assert (i = j) as -> by congruence.
        assert (item = old) as -> by congruence.
        rewrite Hmiss.
        { apply list_lookup_insert_eq. by eapply lookup_lt_Some. }
        intros e He Hf'. rewrite (findIndex_ids _ _ its Hids) in Hf'.
        by apply (Hapart e j He).
      * apply (Hhit e); [done| |].
        { by rewrite (findIndex_ids _ _ its Hids). }
        rewrite list_lookup_insert_ne; [done|].
        intros <-. by apply (Hapart e j He).
    + intros i Hno. rewrite Hmiss.
      * apply list_lookup_insert_ne. intros <-. apply (Hno e0); [by left|done].
      * intros e He Hf'. rewrite (findIndex_ids _ _ its Hids) in Hf'.
        apply (Hno e); [by right|done].
Qed.

Lemma applyLocalEdits_normal (es : list edit) (its : list obj) :
  ∃ its', forEach apply_edit es its = (its', Normal tt) ∧
          length its' = length its.
Proof.
  revert its. induction es as [|e es IH]; intros its; simpl.
  { by exists its. }
  unfold bind.
  destruct (apply_edit_cases e its) as [[-> _] | (i & item & _ & _ & ->)].
  - apply IH.
  - destruct (IH (<[i := edited_item e item]> its)) as (its' & -> & Hlen).
    exists its'. split; [done|]. by rewrite Hlen, length_insert.
Qed.

(** ** box_history_append *)

Lemma update_item_appends u item new old :
  box_history_append u = Some new →
  history (Object_assign item (default ∅ (u_set u))) = Some old →
  update_item u item
  = (<["box_history" := JArr (old ++ new)]>
       (Object_assign item (default ∅ (u_set u))), Normal tt).
Proof.
  intros Hb Hh. unfold update_item, history in *. rewrite Hb.
  destruct (or_else _ _); try done. by injection Hh as ->.
Qed.

Lemma history_assign item (s : obj) :
  s !! "box_history" = None → history (Object_assign item s) = history item.
Proof.
  intros H. unfold history. by rewrite Object_assign_lookup, H.
Qed.

(** C4 (amended). For an [updated] entry that carries [box_history_append]
    and whose target is found, the entries that [box_history] holds once
    [set] has been assigned stay unchanged and in place, and the new entries
    follow them; no entry is closed.  When [set] does not itself carry
    [box_history], those are the entries the item had before the update. *)
Theorem box_history_append_appends (its : list obj) (u : update)
    (new old : list value) (i : nat) (item : obj) :
  box_history_append u = Some new →
  findIndex (has_id (u_id u)) its = Some i →
  its !! i = Some item →
  history (Object_assign item (default ∅ (u_set u))) = Some old →
  ∃ item',
    apply_update u its = (<[i := item']> its, Normal tt) ∧
    item' !! "box_history" = Some (JArr (old ++ new)) ∧
    (∀ f, f ≠ "box_history" →
          item' !! f = Object_assign item (default ∅ (u_set u)) !! f) ∧
    (default ∅ (u_set u) !! "box_history" = None → history item = Some old).
Proof.
  intros Hb Hf Hi Hh.
  exists (<["box_history" := JArr (old ++ new)]>
            (Object_assign item (default ∅ (u_set u)))).
  split; [|split; [|split]].
  - unfold apply_update. rewrite Hf, Hi.
    by rewrite (update_item_appends u item new old Hb Hh).
  - by rewrite lookup_insert_eq.
  - intros f Hne. by rewrite lookup_insert_ne.
  - intros Hs. by rewrite <- (history_assign item _ Hs).
Qed.

(** Appending an open entry to an item whose current entry is open leaves
    two open entries. *)
Lemma box_history_append_appends_witness :
  ∃ item',
    apply_update update_move [item_in_M] = ([item'], Normal tt) ∧
    item' !! "box_history" = Some (JArr [entry_M_open; entry_S_open]) ∧
    history item_in_M = Some [entry_M_open].
Proof.
  destruct (box_history_append_appends [item_in_M] update_move
              [entry_S_open] [entry_M_open] 0 item_in_M)
    as (item' & Hrun & Hbh & _ & Hold); try reflexivity.
  exists item'. split; [exact Hrun|]. split; [exact Hbh|].
  apply Hold. reflexivity.
Defined.

(** C4 as stated fails: an update whose [set] carries [box_history] replaces
    the item's entries before the new ones are pushed, so the prior open
    entry is gone (here: replaced by its closed version). *)
Lemma box_history_replaced_by_set :
  history item_in_M = Some [entry_M_open] ∧
  ∃ item',
    apply_update update_close_and_move [item_in_M] = ([item'], Normal tt) ∧
    history item' = Some [entry_M_closed; entry_S_open] ∧
    ¬ ([entry_M_open] `prefix_of` [entry_M_closed; entry_S_open]).
Proof.
  split; [reflexivity|].
  eexists. split; [reflexivity|]. split; [reflexivity|].
  intros [k Hk].
  apply (f_equal (fun l => match l with
                           | JObj o :: _ => o !! "to"
                           | _ => None
                           end)) in Hk.
  vm_compute in Hk. discriminate Hk.
Qed.

(** ** Counting the items that carry an id *)

Lemma count_id_app x l1 l2 :
  count_id x (l1 ++ l2) = count_id x l1 + count_id x l2.
Proof. induction l1 as [|a l1 IH]; simpl; [done|]. rewrite IH. lia. Qed.

Lemma count_id_0 x its : count_id x its = 0 ↔ id_in x its = false.
Proof.
  induction its as [|a its IH]; simpl; [done|].
  destruct (has_id x a); simpl; [split; [lia|done]|done].
Qed.

Lemma count_id_delete x i its a :
  its !! i = Some a →
  count_id x its = (if has_id x a then 1 else 0) + count_id x (delete i its).
Proof.
  revert i. induction its as [|b its IH]; intros [|i]; simpl; try done.
  - by intros [= ->].
  - intros Hi. rewrite (IH i Hi). lia.
Qed.

Lemma has_id_other x y a : has_id y a = true → y ≠ x → has_id x a = false.
Proof.
  intros Hy Hne. destruct (has_id x a) eqn:Hx; [|done].
  destruct Hne. by apply (has_id_inj y x a).
Qed.

(** ** The [removed] stage *)

Lemma apply_remove_normal y its : (apply_remove y its).2 = Normal tt.
Proof. unfold apply_remove. by destruct (findIndex _ its). Qed.

Lemma forEach_remove_cons y rs its :
  forEach apply_remove (y :: rs) its
  = forEach apply_remove rs (apply_remove y its).1.
Proof.
  simpl. unfold bind. pose proof (apply_remove_normal y its) as H.
  destruct (apply_remove y its) as [its' c]. simpl in *. by subst c.
Qed.

Lemma remove_stage_normal rs its : (forEach apply_remove rs its).2 = Normal tt.
Proof.
  revert its. induction rs as [|y rs IH]; intros its; [done|].
  rewrite forEach_remove_cons. apply IH.
Qed.

Lemma apply_remove_count x y its :
  count_id x (apply_remove y its).1
  = if String.eqb y x then pred (count_id x its) else count_id x its.
Proof.
  unfold apply_remove. destruct (findIndex (has_id y) its) as [i|] eqn:Hf; simpl.
  - destruct (findIndex_Some _ _ _ Hf) as (a & Hi & Ha).
    rewrite (count_id_delete x i its a Hi).
    destruct (String.eqb_spec y x) as [-> | Hne].
    + rewrite Ha. simpl. done.
    + by rewrite (has_id_other x y a Ha Hne).
  - destruct (String.eqb_spec y x) as [-> | Hne]; [|done].
    apply findIndex_None, count_id_0 in Hf. by rewrite Hf.
Qed.

Lemma remove_stage_count_le x rs its :
  count_id x (forEach apply_remove rs its).1 ≤ count_id x its.
Proof.
  revert its. induction rs as [|y rs IH]; intros its; [done|].
  rewrite forEach_remove_cons. etrans; [apply IH|].
  rewrite apply_remove_count. destruct (String.eqb y x); lia.
Qed.

Lemma remove_stage_removes x rs its :
  x ∈ rs → count_id x its ≤ 1 →
  id_in x (forEach apply_remove rs its).1 = false.
Proof.
  revert its. induction rs as [|y rs IH]; intros its Hin Hc.
  { by apply elem_of_nil in Hin. }
  rewrite forEach_remove_cons.
  pose proof (apply_remove_count x y its) as Hy.
  destruct (String.eqb_spec y x) as [-> | Hne].
  - apply count_id_0.
    pose proof (remove_stage_count_le x rs (apply_remove x its).1). lia.
  - apply IH; [|lia]. apply elem_of_cons in Hin as [-> | Hin]; done.
Qed.

Lemma apply_remove_keeps y its a :
  a ∈ its → has_id y a = false → a ∈ (apply_remove y its).1.
Proof.
  intros Hin Ha. unfold apply_remove.
  destruct (findIndex (has_id y) its) as [i|] eqn:Hf; simpl; [|done].
  destruct (findIndex_Some _ _ _ Hf) as (b & Hi & Hb).
  apply list_elem_of_lookup in Hin as [j Hj].
  assert (j ≠ i) as Hne by (intros ->; congruence).
  apply list_elem_of_lookup.
  destruct (decide (j < i)) as [Hlt | Hge].
  - exists j. by rewrite list_lookup_delete_lt.
  - exists (pred j). rewrite list_lookup_delete_ge by lia.
    by replace (S (pred j)) with j by lia.
Qed.

Lemma remove_stage_keeps rs its a x :
  a ∈ its → has_id x a = true → x ∉ rs →
  a ∈ (forEach apply_remove rs its).1.
Proof.
  revert its. induction rs as [|y rs IH]; intros its Hin Ha Hx; [done|].
  rewrite forEach_remove_cons. apply not_elem_of_cons in Hx as [Hne Hx].
  apply IH; [|done|done]. apply apply_remove_keeps; [done|].
  by apply (has_id_other y x a).
Qed.

(** ** The [updated] stage *)

Lemma update_item_id u item :
  update_keeps_id u = true → item_id (update_item u item).1 = item_id item.
Proof.
  unfold update_keeps_id, update_item. intros Hk.
  destruct (box_history_append u) as [new|]; simpl.
  - destruct (or_else _ _); simpl;
      (rewrite item_id_insert by done); by apply item_id_assign.
  - by apply item_id_assign.
Qed.

Lemma apply_update_cases u its :
  findIndex (has_id (u_id u)) its = None ∧ apply_update u its = (its, Normal tt)
  ∨ ∃ i item,
      findIndex (has_id (u_id u)) its = Some i ∧ its !! i = Some item ∧
      apply_update u its
      = (<[i := (update_item u item).1]> its, (update_item u item).2).
Proof.
  unfold apply_update. destruct (findIndex _ its) as [i|] eqn:Hf; [|by left].
  destruct (findIndex_Some _ _ _ Hf) as (item & Hi & _).
  right. exists i, item. rewrite Hi. by destruct (update_item u item).
Qed.

Lemma apply_update_ids u its :
  update_keeps_id u = true → ids (apply_update u its).1 = ids its.
Proof.
  intros Hk.
  destruct (apply_update_cases u its) as [[_ ->] | (i & item & _ & Hi & ->)].
  - done.
  - simpl. apply (ids_insert _ _ item); [done|]. by apply update_item_id.
Qed.

Lemma update_stage_ids us its :
  forallb update_keeps_id us = true →
  ids (forEach apply_update us its).1 = ids its.
Proof.
  revert its. induction us as [|u us IH]; intros its Hk; [done|].
  simpl in Hk. apply andb_true_iff in Hk as [Hu Hk].
  simpl. unfold bind. pose proof (apply_update_ids u its Hu) as Hids.
  destruct (apply_update u its) as [its1 [[]|e]]; simpl in *; [|done].
  by rewrite IH.
Qed.

(** ** The stages of mergeDelta *)

Lemma mergeDelta_stages d its :
  mergeDelta d its
  = match forEach apply_update (default [] (updated d))
                  (its ++ default [] (added d)) with
    | (its2, Normal _) => forEach apply_remove (default [] (removed d)) its2
    | (its2, Throw e) => (its2, Throw e)
    end.
Proof.
  unfold mergeDelta, bind.
  destruct (added d) as [a|]; simpl; [|rewrite app_nil_r];
    (destruct (updated d) as [us|]; simpl;
     [destruct (forEach apply_update us _) as [its2 [[]|e]]; [|done]|]);
    by destruct (removed d).
Qed.

Lemma findIndex_app_ge {A} (p : A → bool) l1 l2 i :
  findIndex p (l1 ++ l2) = Some i → length l1 ≤ i → existsb p l1 = false.
Proof.
  revert i. induction l1 as [|a l1 IH]; intros i; simpl; [done|].
  destruct (p a); simpl.
  - intros [= <-]. lia.
  - destruct (findIndex p (l1 ++ l2)) as [j|] eqn:Hf; simpl; [|done].
    intros [= <-] Hle. apply (IH j); [done|lia].
Qed.

(** With ids stable, the first item carrying [x] receives exactly the
    updates addressed to [x], in order. *)
Lemma update_stage_tracks x us its its2 i rec :
  forallb update_keeps_id us = true →
  findIndex (has_id x) its = Some i → its !! i = Some rec →
  forEach apply_update us its = (its2, Normal tt) →
  ∃ rec', update_all (updates_for x us) rec = (rec', Normal tt) ∧
          its2 !! i = Some rec'.
Proof.
  revert its rec. induction us as [|u us IH]; intros its rec Hk Hf Hi Hrun.
  { injection Hrun as <-. by exists rec. }
  simpl in Hk. apply andb_true_iff in Hk as [Hu Hk].
  simpl in Hrun. unfold bind in Hrun.
  pose proof (apply_update_ids u its Hu) as Hids.
  destruct (findIndex_Some _ _ _ Hf) as (rec0 & Hrec0 & Hx).
  assert (rec0 = rec) as -> by congruence.
  unfold updates_for. rewrite filter_cons.
  destruct (apply_update_cases u its) as [[Hnone Hstep] | (j & item & Hfj & Hj & Hstep)];
    rewrite Hstep in Hrun, Hids; simpl in Hids.
  - destruct (decide (u_id u = x)) as [Heq | Hne].
    { rewrite Heq in Hnone. congruence. }
    by apply (IH its rec).
  - destruct (update_item u item) as [item' c] eqn:Hitem. simpl in *.
    destruct c as [[]|e]; [|done].
    destruct (decide (u_id u = x)) as [Heq | Hne].
    + rewrite Heq in Hfj. assert (j = i) as -> by congruence.
      assert (item = rec) as -> by congruence.
      simpl. rewrite Hitem.
      apply (IH (<[i := item']> its) item'); [done| | |done].
      * by rewrite (findIndex_ids x _ its Hids).
      * apply list_lookup_insert_eq. by eapply lookup_lt_Some.
    + apply (IH (<[j := item']> its) rec); [done| | |done].
      * by rewrite (findIndex_ids x _ its Hids).
      * rewrite list_lookup_insert_ne; [done|]. intros ->.
        destruct (findIndex_Some _ _ _ Hfj) as (b & Hb & Hpb).
        apply Hne. apply (has_id_inj _ _ rec); [|done]. congruence.
Qed.

Lemma update_all_id us item item' c :
  forallb update_keeps_id us = true →
  update_all us item = (item', c) → item_id item' = item_id item.
Proof.
  revert item. induction us as [|u us IH]; intros item Hk; simpl.
  { by intros [= <- _]. }
  simpl in Hk. apply andb_true_iff in Hk as [Hu Hk].
  pose proof (update_item_id u item Hu) as Hid.
  destruct (update_item u item) as [item1 [[]|e]]; simpl in Hid.
  - intros H. rewrite (IH item1 Hk H). done.
  - intros [= <- _]. done.
Qed.

Lemma forallb_updates_for x us :
  forallb update_keeps_id us = true →
  forallb update_keeps_id (updates_for x us) = true.
Proof.
  rewrite !forallb_forall. intros H u Hu. apply H.
  apply list_elem_of_In. apply list_elem_of_In in Hu.
  unfold updates_for in Hu. by apply list_elem_of_filter in Hu as [_ Hu].
Qed.

Lemma update_item_field u item f :
  f ≠ "box_history" →
  (update_item u item).1 !! f
  = match default ∅ (u_set u) !! f with
    | Some v => Some v
    | None => item !! f
    end.
Proof.
  intros Hf. unfold update_item.
  destruct (box_history_append u) as [new|]; simpl.
  - destruct (or_else _ _); simpl; rewrite lookup_insert_ne by done;
      apply Object_assign_lookup.
  - apply Object_assign_lookup.
Qed.

Lemma update_all_written us item item' f :
  update_all us item = (item', Normal tt) → f ≠ "box_history" →
  item' !! f = written f us (item !! f).
Proof.
  revert item. induction us as [|u us IH]; intros item; simpl.
  { by intros [= <-]. }
  pose proof (update_item_field u item f) as Hu.
  destruct (update_item u item) as [item1 [[]|e]]; [|done].
  intros Hrun Hf. rewrite (IH item1 Hrun Hf). simpl in Hu.
  unfold written. simpl. by rewrite Hu.
Qed.

Lemma appended_cons u us :
  appended (u :: us) = default [] (box_history_append u) ++ appended us.
Proof. done. Qed.

(** Without a [set] that assigns [box_history], the callbacks of the given
    entries leave the record's entries followed by the appended ones. *)
Lemma update_all_history us item item' old :
  update_all us item = (item', Normal tt) →
  forallb keeps_history us = true →
  history item = Some old →
  history item' = Some (old ++ appended us).
Proof.
  revert item old. induction us as [|u us IH]; intros item old Hrun Hk Hh.
  { injection Hrun as <-. rewrite Hh. unfold appended. simpl.
    by rewrite app_nil_r. }
  simpl in Hrun, Hk. apply andb_true_iff in Hk as [Hu Hk].
  unfold keeps_history in Hu.
  destruct (default ∅ (u_set u) !! "box_history") eqn:Hs; [done|].
  pose proof (history_assign item _ Hs) as Ha. rewrite Hh in Ha.
  rewrite appended_cons.
  destruct (box_history_append u) as [new|] eqn:Hb.
  - rewrite (update_item_appends u item new old Hb Ha) in Hrun.
    rewrite app_assoc. apply (IH _ _ Hrun Hk).
    unfold history. by rewrite lookup_insert_eq.
  - unfold update_item in Hrun. rewrite Hb in Hrun.
    by apply (IH _ _ Hrun Hk).
Qed.

(** ** The stages as stated and as run *)

Lemma change_first_found x f its i item :
  findIndex (has_id x) its = Some i → its !! i = Some item →
  change_first x f its = <[i := f item]> its.
Proof.
  revert i. induction its as [|a its IH]; intros i; simpl; [done|].
  destruct (has_id x a).
  - by intros [= <-] [= ->].
  - destruct (findIndex (has_id x) its) as [j|]; simpl; [|done].
    intros [= <-] Hj. simpl. f_equal. by apply IH.
Qed.

Lemma change_first_absent x f its :
  findIndex (has_id x) its = None → change_first x f its = its.
Proof.
  induction its as [|a its IH]; simpl; [done|].
  destruct (has_id x a); [done|].
  destruct (findIndex (has_id x) its); simpl; [done|].
  intros _. f_equal. by apply IH.
Qed.

Lemma update_item_stated u item item' :
  update_item u item = (item', Normal tt) → item' = stated_update u item.
Proof.
  unfold update_item, stated_update, history, Object_assign.
  destruct (box_history_append u) as [new|].
  - destruct (or_else _ _); try done. by intros [= <-].
  - by intros [= <-].
Qed.

Lemma apply_update_stated u its its1 :
  apply_update u its = (its1, Normal tt) →
  its1 = change_first (u_id u) (stated_update u) its.
Proof.
  destruct (apply_update_cases u its) as [[Hf ->] | (i & item & Hf & Hi & ->)].
  - intros [= <-]. by rewrite change_first_absent.
  - intros Hrun. rewrite (change_first_found _ _ _ i item Hf Hi).
    destruct (update_item u item) as [item' c] eqn:Hu. simpl in Hrun.
    injection Hrun as <- ->. by rewrite (update_item_stated u item item' Hu).
Qed.

Lemma update_stage_stated us its its2 :
  forEach apply_update us its = (its2, Normal tt) →
  its2 = foldl (fun st u => change_first (u_id u) (stated_update u) st) its us.
Proof.
  revert its. induction us as [|u us IH]; intros its; simpl.
  { by intros [= <-]. }
  unfold bind. destruct (apply_update u its) as [its1 [[]|e]] eqn:Hu; [|done].
  intros Hrun. rewrite <- (apply_update_stated u its its1 Hu). by apply IH.
Qed.

Lemma drop_first_findIndex y its :
  drop_first y its
  = match findIndex (has_id y) its with
    | Some i => delete i its
    | None => its
    end.
Proof.
  induction its as [|a its IH]; simpl; [done|].
  destruct (has_id y a); [done|]. rewrite IH.
  by destruct (findIndex (has_id y) its).
Qed.

Lemma apply_remove_stated y its :
  apply_remove y its = (drop_first y its, Normal tt).
Proof.
  unfold apply_remove. rewrite drop_first_findIndex.
  by destruct (findIndex (has_id y) its).
Qed.

Lemma remove_stage_stated rs its :
  forEach apply_remove rs its
  = (foldl (fun st y => drop_first y st) its rs, Normal tt).
Proof.
  revert its. induction rs as [|y rs IH]; intros its; [done|].
  rewrite forEach_remove_cons, apply_remove_stated. apply IH.
Qed.

(** C3 (amended). When [mergeDelta] completes, the collection is the one
    the three stages give when run in the order [added], [updated],
    [removed]: the added records pushed; then each [updated] entry, in
    order, applied to the first item carrying its id, its [set] taking the
    place of the record's top-level fields and its [box_history_append]
    following the entries [box_history] then holds; then each [removed] id,
    in order, taking out the first item carrying it.  Let the first record
    carrying the id [x] after the push be one of the added records, and let
    no [set] of the delta assign [id].  If [x] is also in [removed] and is
    added once, no item with id [x] is left.  If [x] is not in [removed],
    the record is in the collection; each of its fields other than
    [box_history] holds the value of the last [set] addressed to [x] that
    carries the field (a field holding a sub-object is replaced whole), or
    the added record's value when none does; and when no such [set] carries
    [box_history], its [box_history] is the added record's entries followed
    by the appended entries in order. *)
Theorem mergeDelta_stage_order (d : delta) (its its' : list obj) :
  mergeDelta d its = (its', Normal tt) →
  its' = stated_stages d its ∧
  ∀ (x : string) (i : nat) (rec : obj),
    delta_keeps_ids d = true →
    findIndex (has_id x) (its ++ default [] (added d)) = Some i →
    length its ≤ i →
    (its ++ default [] (added d)) !! i = Some rec →
    (x ∈ default [] (removed d) → count_id x (default [] (added d)) = 1 →
     id_in x its' = false) ∧
    (x ∉ default [] (removed d) →
     ∃ rec',
       rec' ∈ its' ∧ has_id x rec' = true ∧
       (∀ f, f ≠ "box_history" →
             rec' !! f
             = written f (updates_for x (default [] (updated d))) (rec !! f)) ∧
       (forallb keeps_history (updates_for x (default [] (updated d))) = true →
        ∀ old, history rec = Some old →
               history rec'
               = Some (old ++ appended (updates_for x (default [] (updated d)))))).
Proof.
  intros Hrun. rewrite mergeDelta_stages in Hrun.
  destruct (forEach apply_update _ _) as [its2 [[]|e]] eqn:Hup; [|done].
  assert (Hrm : its' = (forEach apply_remove (default [] (removed d)) its2).1)
    by by rewrite Hrun.
  split.
  { rewrite Hrm, remove_stage_stated. unfold stated_stages. simpl.
    by rewrite (update_stage_stated _ _ _ Hup). }
  unfold delta_keeps_ids. intros x i rec Hk Hf Hle Hi.
  pose proof (update_stage_ids _ (its ++ default [] (added d)) Hk) as Hids.
  rewrite Hup in Hids. simpl in Hids.
  split.
  - intros Hin Hone. rewrite Hrm. apply remove_stage_removes; [done|].
    rewrite (count_id_ids x _ _ Hids), count_id_app.
    apply findIndex_app_ge in Hf; [|done].
    apply count_id_0 in Hf. lia.
  - intros Hout.
    destruct (update_stage_tracks x _ _ _ i rec Hk Hf Hi Hup) as (rec' & Hall & Hi').
    exists rec'.
    assert (Hx : has_id x rec' = true).
    { destruct (findIndex_Some _ _ _ Hf) as (r & Hr & Hxr).
      assert (r = rec) as -> by congruence.
      rewrite <- Hxr. apply has_id_item_id.
      apply (update_all_id _ _ _ _ (forallb_updates_for x _ Hk) Hall). }
    split; [|split; [done|split]].
    + rewrite Hrm. apply (remove_stage_keeps _ _ _ x); [|done|done].
      apply list_elem_of_lookup. by exists i.
    + intros f Hne. by apply (update_all_written _ _ _ f Hall).
    + intros Hkh old Hold. by apply (update_all_history _ _ _ _ Hall).
Qed.

(** In the last example below the order of the stages shows: the update
    reaches the first of the two records and the removal then takes that
    one out, so the record left is the uncorrected one. *)
Lemma mergeDelta_stage_order_witness :
  (mergeDelta delta_add_update_remove [it_1]).1
  = stated_stages delta_add_update_remove [it_1] ∧
  id_in "it_3" (mergeDelta delta_add_update_remove [it_1]).1 = false ∧
  (∃ rec',
     rec' ∈ (mergeDelta delta_add_update [it_1]).1 ∧
     rec' !! "pub" = Some (JObj {[ "page_number" := JStr "A4" ]}) ∧
     rec' !! "item_name" = Some (JStr "Newspaper clipping")) ∧
  (∃ rec',
     rec' ∈ (mergeDelta delta_add_move []).1 ∧
     rec' !! "box_id" = Some (JStr "S") ∧
     history rec' = Some [entry_M_open; entry_S_open]) ∧
  (mergeDelta delta_add_twice []).1 = [rec_clipping].
Proof.
  split; [|split; [|split; [|split]]]; cycle 4.
  { rewrite (proj1 (mergeDelta_stage_order delta_add_twice []
                      (mergeDelta delta_add_twice []).1 eq_refl)).
    reflexivity. }
  - apply (mergeDelta_stage_order delta_add_update_remove [it_1]).
    reflexivity.
  - destruct (mergeDelta_stage_order delta_add_update_remove [it_1]
                (mergeDelta delta_add_update_remove [it_1]).1 eq_refl)
      as [_ Hx].
    destruct (Hx "it_3" 1 rec_clipping) as [Hgone _];
      [reflexivity | reflexivity | simpl; lia | reflexivity |].
    apply Hgone; [|reflexivity]. apply list_elem_of_singleton. reflexivity.
  - destruct (mergeDelta_stage_order delta_add_update [it_1]
                (mergeDelta delta_add_update [it_1]).1 eq_refl)
      as [_ Hx].
    destruct (Hx "it_3" 1 rec_clipping) as [_ Hkept];
      [reflexivity | reflexivity | simpl; lia | reflexivity |].
    destruct Hkept as (rec' & Hin & _ & Hfld & _).
    { apply not_elem_of_nil. }
    exists rec'. split; [exact Hin|]. split.
    + rewrite (Hfld "pub"); [reflexivity|discriminate].
    + rewrite (Hfld "item_name"); [reflexivity|discriminate].
  - destruct (mergeDelta_stage_order delta_add_move []
                (mergeDelta delta_add_move []).1 eq_refl)
      as [_ Hx].
    destruct (Hx "it_1" 0 item_in_M) as [_ Hkept];
      [reflexivity | reflexivity | simpl; lia | reflexivity |].
    destruct Hkept as (rec' & Hin & _ & Hfld & Hhist).
    { apply not_elem_of_nil. }
    exists rec'. split; [exact Hin|]. split.
    + rewrite (Hfld "box_id"); [reflexivity|discriminate].
    + rewrite (Hhist eq_refl [entry_M_open] eq_refl). reflexivity.
Defined.

(** C3 as stated fails on both counts.  A [set] that carries a sub-object
    replaces the record's sub-object whole: the publication name of the
    added record is lost.  And an id that is both added and removed is still
    in the collection when the collection already held it, because
    [removed] takes out one item per entry. *)
Lemma stage_order_counterexample :
  (rec_clipping !! "pub"
   = Some (JObj {[ "publication_name" := JStr "Pleasanton Express";
                   "page_number" := JStr "A3" ]}) ∧
   ∃ rec', mergeDelta delta_add_update [] = ([rec'], Normal tt) ∧
           rec' !! "pub" = Some (JObj {[ "page_number" := JStr "A4" ]})) ∧
  (id_in "it_1" (default [] (added delta_add_remove)) = true ∧
   "it_1" ∈ default [] (removed delta_add_remove) ∧
   mergeDelta delta_add_remove [it_1] = ([it_1], Normal tt)).
Proof.
  split.
  - split; [reflexivity|]. eexists. split; reflexivity.
  - split; [reflexivity|]. split; [|reflexivity].
    apply list_elem_of_singleton. reflexivity.
Qed.

(** ** The delta loop and the reconciled collection *)

Lemma load_deltas_replay fetch files its ws :
  (load_deltas fetch files its ws).1 = replay (fetched fetch files) its.
Proof.
  revert its ws. induction files as [|f files IH]; intros its ws; [done|].
  unfold fetched. simpl. destruct (fetch f) as [d|]; simpl.
  - destruct (mergeDelta d its) as [its' [[]|e]]; apply IH.
  - apply IH.
Qed.

Lemma loadCatalogData_items w a b :
  base_file w = Some b →
  items (loadCatalogData w a)
  = (applyLocalEdits (localEdits a)
       (replay (fetched_deltas w) (default [] (b_items b)))).1.
Proof.
  intros Hb. unfold loadCatalogData, fetched_deltas, manifest_files.
  rewrite Hb. destruct (index_file w) as [idx|].
  - rewrite <- (load_deltas_replay _ _ _ (warnings a)).
    destruct (load_deltas _ _ _ _) as [its ws]. simpl.
    destruct (extract_filters _ _) as [fs [[]|e]]; done.
  - simpl. destruct (extract_filters _ _) as [fs [[]|e]]; done.
Qed.

Lemma loadCatalogData_no_base w a :
  base_file w = None → loadCatalogData w a = showError load_error a.
Proof. intros Hb. unfold loadCatalogData. by rewrite Hb. Qed.

(** The end-to-end scenario: the base holds [it_1] in box DO3M, the delta
    adds [it_2] and sets the notes of [it_1], and the overlay names
    [it_1]. *)
Example end_to_end_scenario :
  ∃ item1,
    items (loadCatalogData world_sound (fresh_app (Overlay [edit_name] None)))
    = [item1; it_2] ∧
    item1 !! "box_id" = Some (JStr "DO3M") ∧
    item1 !! "notes" = Some (JStr "fragile") ∧
    item1 !! "item_name" = Some (JStr "Family letter") ∧
    item1 !! "_edited" = Some (JBool true) ∧
    it_2 !! "_edited" = None ∧
    error_shown
      (loadCatalogData world_sound (fresh_app (Overlay [edit_name] None)))
    = None.
Proof. eexists. repeat split; reflexivity. Qed.

(** ** Distinct ids *)

Lemma existsb_sublist {A} (p : A → bool) (l' l : list A) :
  l' `sublist_of` l → existsb p l' = true → existsb p l = true.
Proof.
  induction 1 as [|x l1 l2 _ IH|x l1 l2 _ IH]; simpl; [done| |].
  - destruct (p x); [done|]. apply IH.
  - intros H. rewrite (IH H). by destruct (p x).
Qed.

Lemma distinct_sublist (l' l : list (option value)) :
  l' `sublist_of` l → distinct l = true → distinct l' = true.
Proof.
  induction 1 as [|x l1 l2 Hsub IH|x l1 l2 _ IH]; simpl; [done| |].
  - intros [Hx Hd]%andb_true_iff. rewrite (IH Hd), andb_true_r.
    destruct (existsb (same_prop x) l1) eqn:E; [|done].
    by rewrite (existsb_sublist _ _ _ Hsub E) in Hx.
  - intros [_ Hd]%andb_true_iff. by apply IH.
Qed.

Lemma apply_remove_sublist y its : (apply_remove y its).1 `sublist_of` its.
Proof.
  unfold apply_remove. destruct (findIndex _ its); simpl; [|done].
  apply sublist_delete.
Qed.

Lemma remove_stage_sublist rs its :
  (forEach apply_remove rs its).1 `sublist_of` its.
Proof.
  revert its. induction rs as [|y rs IH]; intros its; [done|].
  rewrite forEach_remove_cons. etrans; [apply IH|]. apply apply_remove_sublist.
Qed.

(** With ids stable, the ids after a delta are among the ids of the
    collection and of the added records, in the same order. *)
Lemma mergeDelta_ids_sublist d its :
  delta_keeps_ids d = true →
  ids (mergeDelta d its).1 `sublist_of` ids (its ++ default [] (added d)).
Proof.
  unfold delta_keeps_ids. intros Hk. rewrite mergeDelta_stages.
  pose proof (update_stage_ids _ (its ++ default [] (added d)) Hk) as Hids.
  destruct (forEach apply_update _ _) as [its2 [[]|e]]; simpl in *.
  - rewrite <- Hids. unfold ids. apply fmap_sublist, remove_stage_sublist.
  - by rewrite Hids.
Qed.

Lemma mergeDelta_preserves_distinct d its :
  delta_keeps_ids d = true →
  distinct_ids (its ++ default [] (added d)) = true →
  distinct_ids (mergeDelta d its).1 = true.
Proof.
  intros Hk. apply distinct_sublist. by apply mergeDelta_ids_sublist.
Qed.

Lemma applyLocalEdits_ids ov its :
  overlay_keeps_ids ov = true → ids (applyLocalEdits ov its).1 = ids its.
Proof.
  unfold overlay_keeps_ids, applyLocalEdits.
  revert its. induction (edited ov) as [|e es IH]; intros its Hk; [done|].
  simpl in Hk. apply andb_true_iff in Hk as [He Hk].
  simpl. unfold bind. pose proof (apply_edit_ids e its He) as Hids.
  destruct (apply_edit_cases e its) as [[Hs _] | (i & item & _ & _ & Hs)];
    rewrite Hs in Hids |- *; simpl in Hids; rewrite IH by done; done.
Qed.

Lemma replay_ids_sublist ds its :
  forallb delta_keeps_ids ds = true →
  ids (replay ds its) `sublist_of` ids (its ++ added_records ds).
Proof.
  revert its. induction ds as [|d ds IH]; intros its Hk.
  { simpl. by rewrite app_nil_r. }
  simpl in Hk. apply andb_true_iff in Hk as [Hd Hk].
  unfold replay, added_records. simpl. etrans; [apply (IH _ Hk)|].
  unfold ids. rewrite app_assoc, !fmap_app.
  apply sublist_app; [|done].
  rewrite <- fmap_app. by apply mergeDelta_ids_sublist.
Qed.

(** C2 (amended).  Nothing in the engine checks ids, but every step keeps
    the ids it finds: when the ids of the base items and of the records
    added by the fetched deltas are pairwise distinct, and no [set] of a
    delta or of the overlay assigns [id], the items of the reconciled
    collection have pairwise distinct ids. *)
Theorem reconciled_ids_distinct (w : world) (a : app) (b : base_doc) :
  base_file w = Some b →
  distinct_ids (default [] (b_items b) ++ added_records (fetched_deltas w))
  = true →
  forallb delta_keeps_ids (fetched_deltas w) = true →
  overlay_keeps_ids (localEdits a) = true →
  distinct_ids (items (loadCatalogData w a)) = true.
Proof.
  intros Hb Hd Hk Hov. rewrite (loadCatalogData_items w a b Hb).
  unfold distinct_ids. rewrite (applyLocalEdits_ids _ _ Hov).
  revert Hd. apply distinct_sublist. by apply replay_ids_sublist.
Qed.

Lemma reconciled_ids_distinct_witness :
  distinct_ids
    (items (loadCatalogData world_sound
              (fresh_app (Overlay [edit_name; edit_gone] None)))) = true.
Proof.
  apply (reconciled_ids_distinct world_sound
           (fresh_app (Overlay [edit_name; edit_gone] None))
           (BaseDoc (Some [it_1]) (Some "1.0.0")));
    reflexivity.
Defined.

(** C2 as stated fails: a delta that adds a record for an id the base
    already holds leaves two items with that id. *)
Lemma duplicate_id_counterexample :
  items (loadCatalogData world_readded (fresh_app (Overlay [] None)))
  = [it_1; it_1] ∧
  distinct_ids
    (items (loadCatalogData world_readded (fresh_app (Overlay [] None))))
  = false.
Proof. split; reflexivity. Qed.

(** ** Applying a delta twice *)

Lemma update_item_no_append u item :
  no_append u = true →
  update_item u item = (Object_assign item (default ∅ (u_set u)), Normal tt).
Proof.
  unfold no_append, update_item. by destruct (box_history_append u).
Qed.

Lemma same_prop_item_id x a b :
  has_id x a = true → has_id x b = true →
  same_prop (item_id a) (item_id b) = true.
Proof.
  unfold has_id. destruct (item_id a) as [[]|], (item_id b) as [[]|]; try done.
  simpl. intros Ha Hb. apply String.eqb_eq in Ha, Hb. subst.
  apply String.eqb_refl.
Qed.

Lemma distinct_count x its : distinct_ids its = true → count_id x its ≤ 1.
Proof.
  unfold distinct_ids. induction its as [|a its IH]; simpl; [lia|].
  intros [Ha Hd]%andb_true_iff. specialize (IH Hd).
  destruct (has_id x a) eqn:Hx; [|lia].
  assert (count_id x its = 0) as ->; [|lia].
  apply count_id_0. destruct (id_in x its) eqn:Hin; [|done].
  apply negb_true_iff in Ha. rewrite <- Ha. symmetry.
  unfold id_in in Hin. apply existsb_exists in Hin as (b & Hb & Hxb).
  apply existsb_exists. exists (item_id b). split.
  - unfold ids. apply list_elem_of_In, list_elem_of_fmap_2.
    by apply list_elem_of_In.
  - by apply (same_prop_item_id x).
Qed.

Lemma fmap_no_match x (f : obj → obj) its :
  id_in x its = false →
  (fun a => if has_id x a then f a else a) <$> its = its.
Proof.
  induction its as [|a its IH]; csimpl; [done|].
  destruct (has_id x a); simpl; [done|]. intros H. by rewrite IH.
Qed.

Lemma first_match_fmap x (f : obj → obj) its i item :
  count_id x its ≤ 1 →
  findIndex (has_id x) its = Some i → its !! i = Some item →
  <[i := f item]> its = (fun a => if has_id x a then f a else a) <$> its.
Proof.
  revert i. induction its as [|a its IH]; intros i; csimpl; [done|].
  destruct (has_id x a) eqn:Hx.
  - intros Hc [= <-] [= <-]. simpl. f_equal.
    symmetry. apply fmap_no_match, count_id_0. lia.
  - destruct (findIndex (has_id x) its) as [j|]; simpl; [|done].
    intros Hc [= <-] Hj. simpl. f_equal. by apply IH.
Qed.

Lemma apply_update_fmap u its :
  no_append u = true → count_id (u_id u) its ≤ 1 →
  apply_update u its = (update_matching u <$> its, Normal tt).
Proof.
  intros Hn Hc.
  destruct (apply_update_cases u its) as [[Hnone ->] | (i & item & Hf & Hi & ->)].
  - f_equal. symmetry.
    apply (fmap_no_match _ (fun a => Object_assign a (default ∅ (u_set u)))).
    by apply findIndex_None.
  - rewrite (update_item_no_append u item Hn). simpl. f_equal.
    by apply (first_match_fmap _
                (fun a => Object_assign a (default ∅ (u_set u)))).
Qed.

Lemma update_matching_id u item :
  update_keeps_id u = true → item_id (update_matching u item) = item_id item.
Proof.
  intros Hk. unfold update_matching.
  destruct (has_id (u_id u) item); [|done]. by apply item_id_assign.
Qed.

Lemma update_matching_all_id us item :
  forallb update_keeps_id us = true →
  item_id (update_matching_all us item) = item_id item.
Proof.
  unfold update_matching_all. revert item.
  induction us as [|u us IH]; intros item Hk; [done|].
  simpl in Hk. apply andb_true_iff in Hk as [Hu Hk].
  simpl. rewrite (IH _ Hk). by apply update_matching_id.
Qed.

Lemma ids_fmap (g : obj → obj) its :
  (∀ a, item_id (g a) = item_id a) → ids (g <$> its) = ids its.
Proof.
  intros Hg. unfold ids. rewrite <- list_fmap_compose.
  apply list_fmap_ext. intros _ a _. apply Hg.
Qed.

Lemma update_stage_fmap us its :
  forallb no_append us = true → forallb update_keeps_id us = true →
  distinct_ids its = true →
  forEach apply_update us its = (update_matching_all us <$> its, Normal tt).
Proof.
  revert its. induction us as [|u us IH]; intros its Hn Hk Hd.
  { simpl. unfold ret, update_matching_all. simpl. by rewrite list_fmap_id. }
  simpl in Hn, Hk.
  apply andb_true_iff in Hn as [Hnu Hn]. apply andb_true_iff in Hk as [Hku Hk].
  simpl. unfold bind.
  rewrite (apply_update_fmap u its Hnu (distinct_count _ _ Hd)).
  rewrite IH; [|done|done|].
  - by rewrite <- list_fmap_compose.
  - unfold distinct_ids.
    rewrite (ids_fmap _ its (fun a => update_matching_id u a Hku)). done.
Qed.

Lemma apply_remove_fmap (g : obj → obj) y its :
  (∀ a, item_id (g a) = item_id a) →
  (apply_remove y (g <$> its)).1 = g <$> (apply_remove y its).1.
Proof.
  intros Hg. unfold apply_remove.
  rewrite (findIndex_ids y (g <$> its) its (ids_fmap g its Hg)).
  destruct (findIndex (has_id y) its); simpl; [|done].
  by rewrite list_fmap_delete.
Qed.

Lemma remove_stage_fmap (g : obj → obj) rs its :
  (∀ a, item_id (g a) = item_id a) →
  (forEach apply_remove rs (g <$> its)).1
  = g <$> (forEach apply_remove rs its).1.
Proof.
  intros Hg. revert its. induction rs as [|y rs IH]; intros its; [done|].
  rewrite !forEach_remove_cons, apply_remove_fmap by done. apply IH.
Qed.

Lemma keeps_id_union (s1 s2 : obj) :
  keeps_id s1 = true → keeps_id s2 = true → keeps_id (s1 ∪ s2) = true.
Proof.
  unfold keeps_id. intros H1 H2.
  destruct (s1 !! "id") eqn:E1; [done|]. destruct (s2 !! "id") eqn:E2; [done|].
  assert ((s1 ∪ s2) !! "id" = None) as -> by by apply lookup_union_None_2.
  done.
Qed.

Lemma has_id_addressed u item :
  has_id (u_id u) item = addressed (item_id item) u.
Proof. done. Qed.

Lemma update_matching_all_merged us acc item :
  forallb update_keeps_id us = true → keeps_id acc = true →
  update_matching_all us (acc ∪ item)
  = merged_for (item_id item) us acc ∪ item.
Proof.
  unfold update_matching_all.
  revert acc. induction us as [|u us IH]; intros acc Hk Hacc; [done|].
  simpl in Hk. apply andb_true_iff in Hk as [Hu Hk]. simpl.
  unfold update_matching at 2. rewrite has_id_addressed.
  assert (item_id (acc ∪ item) = item_id item) as ->
    by by apply (item_id_assign item acc).
  destruct (addressed (item_id item) u).
  - unfold Object_assign. rewrite (assoc_L (∪)).
    apply IH; [done|]. by apply keeps_id_union.
  - by apply IH.
Qed.

Lemma merged_for_keeps_id o us acc :
  forallb update_keeps_id us = true → keeps_id acc = true →
  keeps_id (merged_for o us acc) = true.
Proof.
  revert acc. induction us as [|u us IH]; intros acc Hk Hacc; [done|].
  simpl in Hk. apply andb_true_iff in Hk as [Hu Hk]. simpl.
  apply IH; [done|]. destruct (addressed o u); [|done].
  by apply keeps_id_union.
Qed.

Lemma keeps_id_empty : keeps_id ∅ = true.
Proof. unfold keeps_id. by rewrite lookup_empty. Qed.

Lemma update_matching_all_merged_empty us item :
  forallb update_keeps_id us = true →
  update_matching_all us item = merged_for (item_id item) us ∅ ∪ item.
Proof.
  intros Hk.
  rewrite <- (update_matching_all_merged us ∅ item Hk keeps_id_empty).
  by rewrite (left_id_L ∅ (∪)).
Qed.

Lemma update_matching_all_idemp us item :
  forallb update_keeps_id us = true →
  update_matching_all us (update_matching_all us item)
  = update_matching_all us item.
Proof.
  intros Hk.
  rewrite (update_matching_all_merged_empty us (update_matching_all us item) Hk).
  rewrite (update_matching_all_id us item Hk).
  rewrite (update_matching_all_merged_empty us item Hk).
  by rewrite (assoc_L (∪)), (idemp_L (∪)).
Qed.

Lemma remove_stage_pair rs its :
  forEach apply_remove rs its = ((forEach apply_remove rs its).1, Normal tt).
Proof.
  pose proof (remove_stage_normal rs its) as H.
  destruct (forEach apply_remove rs its) as [its' c]. simpl in *. by subst c.
Qed.

Lemma remove_stage_again rs its :
  (∀ y, y ∈ rs → count_id y its ≤ 1) →
  forEach apply_remove rs (forEach apply_remove rs its).1
  = forEach apply_remove rs its.
Proof.
  intros Hc. rewrite (remove_stage_pair rs its) at 2.
  apply forEach_noop. intros y Hy. apply apply_remove_absent.
  apply remove_stage_removes; [done|]. by apply Hc.
Qed.

(** [push_added] has no check of its own: a delta that only adds records
    appends them again each time it is applied. *)
Lemma mergeDelta_added_twice a its :
  mergeDelta (Delta (Some a) None None)
             (mergeDelta (Delta (Some a) None None) its).1
  = ((its ++ a) ++ a, Normal tt).
Proof. done. Qed.

(** C1 (amended).  Applying a delta a second time changes nothing when the
    delta adds no record and appends no box history, no [set] assigns [id],
    and the ids of the collection are pairwise distinct.  (Added records
    are pushed without a look at the ids already present, and
    [box_history_append] pushes again, each time the delta is applied.) *)
Theorem mergeDelta_idempotent (d : delta) (its : list obj) :
  default [] (added d) = [] →
  delta_no_append d = true →
  delta_keeps_ids d = true →
  distinct_ids its = true →
  mergeDelta d (mergeDelta d its).1 = mergeDelta d its.
Proof.
  unfold delta_no_append, delta_keeps_ids. intros Ha Hn Hk Hd.
  rewrite !mergeDelta_stages, Ha, !app_nil_r.
  set (us := default [] (updated d)) in *.
  set (rs := default [] (removed d)) in *.
  set (G := update_matching_all us).
  assert (HG : ∀ a, item_id (G a) = item_id a)
    by (intros a; by apply update_matching_all_id).
  rewrite (update_stage_fmap us its Hn Hk Hd). cbv beta iota. fold G.
  assert (HdG : distinct_ids (G <$> its) = true).
  { unfold distinct_ids. by rewrite (ids_fmap G its HG). }
  set (F := (forEach apply_remove rs (G <$> its)).1).
  assert (HdF : distinct_ids F = true).
  { revert HdG. apply distinct_sublist. unfold ids.
    apply fmap_sublist, remove_stage_sublist. }
  rewrite (update_stage_fmap us F Hn Hk HdF). fold G.
  assert (HGF : G <$> F = F).
  { unfold F. rewrite (remove_stage_fmap G rs its HG).
    rewrite <- list_fmap_compose. apply list_fmap_ext.
    intros _ a _. by apply update_matching_all_idemp. }
  rewrite HGF. unfold F. apply remove_stage_again.
  intros y _. by apply distinct_count.
Qed.

Lemma mergeDelta_idempotent_witness :
  mergeDelta delta_annotate_remove
             (mergeDelta delta_annotate_remove [it_1; it_2]).1
  = mergeDelta delta_annotate_remove [it_1; it_2].
Proof.
  apply (mergeDelta_idempotent delta_annotate_remove [it_1; it_2]);
    reflexivity.
Defined.

(** C1 as stated fails: a second application of a delta that adds [it_1]
    leaves two records for [it_1], and a second application of a delta that
    appends to a box history appends the entry again. *)
Lemma reapplied_delta_counterexample :
  (mergeDelta delta_add_only [] = ([it_1], Normal tt) ∧
   mergeDelta delta_add_only (mergeDelta delta_add_only []).1
   = ([it_1; it_1], Normal tt) ∧
   (mergeDelta delta_add_only (mergeDelta delta_add_only []).1).1
   ≠ (mergeDelta delta_add_only []).1) ∧
  (history <$> (mergeDelta delta_move_only [item_in_M]).1
   = [Some [entry_M_open; entry_S_open]] ∧
   history <$> (mergeDelta delta_move_only
                  (mergeDelta delta_move_only [item_in_M]).1).1
   = [Some [entry_M_open; entry_S_open; entry_S_open]]).
Proof.
  split; [|split; reflexivity].
  split; [reflexivity|]. split; [reflexivity|].
  intros H. apply (f_equal length) in H. discriminate H.
Qed.

(** ** Removal *)

Lemma id_in_app x l1 l2 : id_in x (l1 ++ l2) = id_in x l1 || id_in x l2.
Proof. unfold id_in. apply existsb_app. Qed.

Lemma id_in_ids_existsb x its :
  id_in x its
  = existsb (fun o => match o with
                      | Some (JStr s) => String.eqb s x
                      | _ => false
                      end) (ids its).
Proof. induction its as [|a its IH]; simpl; [done|]. by rewrite <- IH. Qed.

Lemma id_in_sublist x its' its :
  ids its' `sublist_of` ids its → id_in x its = false → id_in x its' = false.
Proof.
  intros Hsub Hno. destruct (id_in x its') eqn:E; [|done].
  rewrite id_in_ids_existsb in E, Hno.
  by rewrite (existsb_sublist _ _ _ Hsub E) in Hno.
Qed.

Lemma mergeDelta_keeps_absent x d its :
  delta_avoids x d = true → id_in x its = false →
  id_in x (mergeDelta d its).1 = false.
Proof.
  intros [Hk Ha]%andb_true_iff Hno. apply negb_true_iff in Ha.
  apply (id_in_sublist x _ (its ++ default [] (added d))).
  - by apply mergeDelta_ids_sublist.
  - by rewrite id_in_app, Hno, Ha.
Qed.

Lemma replay_keeps_absent x ds its :
  forallb (delta_avoids x) ds = true → id_in x its = false →
  id_in x (replay ds its) = false.
Proof.
  revert its. induction ds as [|d ds IH]; intros its Hk Hno; [done|].
  simpl in Hk. apply andb_true_iff in Hk as [Hd Hk].
  unfold replay. simpl. apply IH; [done|]. by apply mergeDelta_keeps_absent.
Qed.

Lemma mergeDelta_removes x d its :
  x ∈ default [] (removed d) → delta_keeps_ids d = true →
  (mergeDelta d its).2 = Normal tt →
  count_id x (its ++ default [] (added d)) ≤ 1 →
  id_in x (mergeDelta d its).1 = false.
Proof.
  unfold delta_keeps_ids. intros Hin Hk Hrun Hc.
  rewrite mergeDelta_stages in Hrun |- *.
  pose proof (update_stage_ids _ (its ++ default [] (added d)) Hk) as Hids.
  destruct (forEach apply_update _ _) as [its2 [[]|e]]; [|done].
  simpl in Hids. apply remove_stage_removes; [done|].
  by rewrite (count_id_ids x _ _ Hids).
Qed.

Lemma replay_app ds1 ds2 its :
  replay (ds1 ++ ds2) its = replay ds2 (replay ds1 its).
Proof. unfold replay. apply foldl_app. Qed.

Lemma fetched_split fetch pre fk post dk :
  fetch fk = Some dk →
  fetched fetch (pre ++ fk :: post)
  = fetched fetch pre ++ dk :: fetched fetch post.
Proof. intros H. unfold fetched. rewrite omap_app. simpl. by rewrite H. Qed.

Lemma replay_split ds1 d ds2 its :
  replay (ds1 ++ d :: ds2) its = replay ds2 (mergeDelta d (replay ds1 its)).1.
Proof. by rewrite replay_app. Qed.

(** Entries for an id that no item carries can be dropped from the
    overlay. *)
Lemma applyLocalEdits_without x ov its :
  overlay_keeps_ids ov = true → id_in x its = false →
  applyLocalEdits (overlay_without x ov) its = applyLocalEdits ov its.
Proof.
  unfold overlay_keeps_ids, applyLocalEdits, overlay_without. simpl.
  revert its. induction (edited ov) as [|e es IH]; intros its Hk Hno; [done|].
  simpl in Hk. apply andb_true_iff in Hk as [He Hk].
  rewrite filter_cons. destruct (decide (e_id e ≠ x)) as [Hne | Heq].
  - simpl. unfold bind.
    pose proof (apply_edit_ids e its He) as Hids.
    destruct (apply_edit_cases e its) as [[Hs _] | (i & item & _ & _ & Hs)];
      rewrite Hs in Hids |- *; simpl in Hids; apply IH; try done.
    by rewrite (id_in_ids x _ its Hids).
  - apply dec_stable in Heq. simpl. unfold bind.
    rewrite apply_edit_absent by by rewrite Heq.
    by apply IH.
Qed.

(** C9 (amended).  Let delta [dk] of the manifest list [x] in [removed] and
    complete, with no [set] assigning [id], and let at most one record with
    id [x] exist when its [removed] stage starts (earlier deltas may have
    added it).  If no later delta adds a record with id [x] or assigns
    [id], and no overlay entry assigns [id], then no item of the reconciled
    collection has id [x], and the overlay entries for [x] change nothing:
    the collection is the one obtained without them. *)
Theorem removal_is_final (w : world) (a : app) (b : base_doc)
    (pre post : list string) (fk : string) (dk : delta) (x : string) :
  base_file w = Some b →
  manifest_files w = pre ++ fk :: post →
  delta_file w fk = Some dk →
  x ∈ default [] (removed dk) →
  delta_keeps_ids dk = true →
  (mergeDelta dk (replay (fetched (delta_file w) pre)
                         (default [] (b_items b)))).2 = Normal tt →
  count_id x (replay (fetched (delta_file w) pre) (default [] (b_items b))
              ++ default [] (added dk)) ≤ 1 →
  forallb (delta_avoids x) (fetched (delta_file w) post) = true →
  overlay_keeps_ids (localEdits a) = true →
  id_in x (items (loadCatalogData w a)) = false ∧
  items (loadCatalogData w a)
  = items (loadCatalogData w
             (with_localEdits (overlay_without x (localEdits a)) a)).
Proof.
  intros Hb Hfiles Hfk Hin Hk Hrun Hc Hpost Hov.
  rewrite !(loadCatalogData_items w _ b Hb). simpl.
  unfold fetched_deltas.
  rewrite Hfiles, (fetched_split _ _ _ _ dk Hfk), replay_split.
  set (S0 := replay (fetched (delta_file w) pre) (default [] (b_items b))) in *.
  assert (Hgone : id_in x (replay (fetched (delta_file w) post)
                             (mergeDelta dk S0).1) = false).
  { apply replay_keeps_absent; [done|]. by apply mergeDelta_removes. }
  split.
  - by rewrite (id_in_ids x _ _ (applyLocalEdits_ids _ _ Hov)).
  - by rewrite applyLocalEdits_without.
Qed.

Lemma removal_is_final_witness :
  id_in "it_2"
    (items (loadCatalogData world_removed
              (fresh_app (Overlay [edit_removed] None)))) = false ∧
  items (loadCatalogData world_removed
           (fresh_app (Overlay [edit_removed] None)))
  = items (loadCatalogData world_removed (fresh_app (Overlay [] None))).
Proof.
  apply (removal_is_final world_removed
           (fresh_app (Overlay [edit_removed] None))
           (BaseDoc (Some [it_1]) (Some "1.0.0"))
           ["2025-01-07.json"] [] "2025-01-08.json"
           (Delta None None (Some ["it_2"])) "it_2");
    try reflexivity.
  apply list_elem_of_singleton. reflexivity.
Defined.

(** C9 as stated fails: an id removed by a delta is in the final
    collection when an earlier delta had added a second record for it, and
    when a later delta adds it again. *)
Lemma removal_counterexample :
  id_in "it_1"
    (items (loadCatalogData world_added_twice (fresh_app (Overlay [] None))))
  = true ∧
  id_in "it_1"
    (items (loadCatalogData world_resurrected (fresh_app (Overlay [] None))))
  = true.
Proof. split; reflexivity. Qed.

(** ** Failures during a load *)

Lemma load_deltas_app fetch files1 files2 its ws :
  load_deltas fetch (files1 ++ files2) its ws
  = load_deltas fetch files2 (load_deltas fetch files1 its ws).1
                             (load_deltas fetch files1 its ws).2.
Proof.
  revert its ws. induction files1 as [|f files1 IH]; intros its ws; [done|].
  simpl. destruct (fetch f) as [d|]; [|apply IH].
  destruct (mergeDelta d its) as [its' [[]|e]]; apply IH.
Qed.

Lemma load_deltas_warnings fetch files its ws :
  ws `prefix_of` (load_deltas fetch files its ws).2.
Proof.
  revert its ws. induction files as [|f files IH]; intros its ws; [done|].
  simpl. destruct (fetch f) as [d|].
  - destruct (mergeDelta d its) as [its' [[]|e]]; [apply IH|].
    etrans; [|apply IH]. by apply prefix_app_r.
  - etrans; [|apply IH]. by apply prefix_app_r.
Qed.

(** A delta that cannot be fetched is skipped with a warning, and the loop
    goes on with the deltas after it: the collection is the one obtained
    from the manifest without that file. *)
Lemma failed_delta_is_skipped fetch files1 f files2 its ws :
  fetch f = None →
  (load_deltas fetch (files1 ++ f :: files2) its ws).1
  = (load_deltas fetch (files1 ++ files2) its ws).1 ∧
  delta_warning f ∈ (load_deltas fetch (files1 ++ f :: files2) its ws).2.
Proof.
  intros Hf. split.
  - rewrite !load_deltas_replay. unfold fetched. rewrite !omap_app.
    simpl. by rewrite Hf.
  - rewrite load_deltas_app. simpl. rewrite Hf.
    eapply elem_of_prefix; [|apply load_deltas_warnings].
    apply elem_of_app. right. by apply list_elem_of_singleton.
Qed.

(** A missing or unparseable base snapshot ends the load with the error
    message and without items. *)
Lemma missing_base_is_terminal w ov :
  base_file w = None →
  error_shown (loadCatalogData w (fresh_app ov)) = Some load_error ∧
  items (loadCatalogData w (fresh_app ov)) = [].
Proof. intros Hb. by rewrite (loadCatalogData_no_base w _ Hb). Qed.

(** With the base present, the load ends in the error message exactly when
    filling the filter sets throws. *)
Lemma loaded_base_error w ov b :
  base_file w = Some b →
  error_shown (loadCatalogData w (fresh_app ov))
  = match (extract_filters (items (loadCatalogData w (fresh_app ov)))
                           (Filters [] [] [])).2 with
    | Normal _ => None
    | Throw _ => Some load_error
    end.
Proof.
  intros Hb. unfold loadCatalogData. rewrite Hb.
  destruct (index_file w) as [idx|].
  - destruct (load_deltas _ _ _ _) as [its ws]. simpl.
    destruct (extract_filters _ _) as [fs [[]|e]] eqn:E; simpl; by rewrite E.
  - simpl. destruct (extract_filters _ _) as [fs [[]|e]] eqn:E; simpl;
      by rewrite E.
Qed.

(** C8.  The load of a catalog whose base snapshot is present and parses
    ends in the terminal error once the people of an item have been edited
    inline: the editor records the new text as a string, [applyLocalEdits]
    assigns it, and [item.people.forEach] throws in the outer [try]. *)
Theorem people_edit_ends_load_in_error :
  let a1 := loadCatalogData world_people (fresh_app (Overlay [] None)) in
  let a2 := saveEdit stringify_sample ascii_trim "it_4" "people"
                     "Gloria Mejia" "Gloria Mejia, Stephen Foster"
                     "2025-01-06T00:00:00.000Z" a1 in
  error_shown a1 = None ∧
  edited (localEdits a2) = [edit_people] ∧
  base_file world_people = Some (BaseDoc (Some [it_4]) (Some "1.0.0")) ∧
  error_shown (loadCatalogData world_people (fresh_app (localEdits a2)))
  = Some load_error.
Proof. repeat split; reflexivity. Qed.

(** ** Box histories only grow under updates that do not assign them *)

Lemma history_array (item : obj) l :
  item !! "box_history" = Some (JArr l) → history item = Some l.
Proof. intros H. unfold history. by rewrite H. Qed.

Lemma update_item_history_prefix u item old :
  keeps_history u = true → history item = Some old →
  ∃ old', history (update_item u item).1 = Some old' ∧ old `prefix_of` old'.
Proof.
  unfold keeps_history. intros Hk Hh.
  destruct (default ∅ (u_set u) !! "box_history") eqn:Hs; [done|].
  pose proof (history_assign item _ Hs) as Ha. rewrite Hh in Ha.
  destruct (box_history_append u) as [new|] eqn:Hb.
  - rewrite (update_item_appends u item new old Hb Ha). simpl.
    exists (old ++ new). split; [|by apply prefix_app_r].
    apply history_array. by rewrite lookup_insert_eq.
  - unfold update_item. rewrite Hb. simpl. by exists old.
Qed.

(** Whatever the [updated] stage does and however it completes, an item's
    box history keeps the entries it had, in place, as long as no [set]
    assigns [box_history]. *)
Lemma update_stage_history_prefix us its i item old :
  forallb keeps_history us = true →
  its !! i = Some item → history item = Some old →
  ∃ item' old',
    (forEach apply_update us its).1 !! i = Some item' ∧
    history item' = Some old' ∧ old `prefix_of` old'.
Proof.
  revert its item old. induction us as [|u us IH]; intros its item old Hk Hi Hh.
  { by exists item, old. }
  simpl in Hk. apply andb_true_iff in Hk as [Hu Hk].
  assert (Hstep : ∃ item1 old1,
            (apply_update u its).1 !! i = Some item1 ∧
            history item1 = Some old1 ∧ old `prefix_of` old1).
  { destruct (apply_update_cases u its) as [[_ ->] | (j & tgt & _ & Hj & ->)].
    - by exists item, old.
    - simpl. destruct (decide (j = i)) as [-> | Hne].
      + assert (tgt = item) as -> by congruence.
        destruct (update_item_history_prefix u item old Hu Hh) as (old1 & H1 & Hp).
        exists (update_item u item).1, old1. split; [|done].
        apply list_lookup_insert_eq. by eapply lookup_lt_Some.
      + exists item, old. by rewrite list_lookup_insert_ne. }
  destruct Hstep as (item1 & old1 & Hi1 & Hh1 & Hp1).
  simpl. unfold bind.
  destruct (apply_update u its) as [its1 [[]|e]]; simpl in *.
  - destruct (IH its1 item1 old1 Hk Hi1 Hh1) as (item' & old' & ? & ? & ?).
    exists item', old'. split; [done|]. split; [done|]. by etrans.
  - by exists item1, old1.
Qed.

(** ** What the overlay leaves behind *)

(** C5 (amended). [applyLocalEdits] always completes and keeps the
    collection's length.  Entries whose id no item carries are ignored: if
    every entry is
    such, the collection is unchanged, and when no [set] assigns [id] the
    entries for an absent id can be dropped without changing the outcome.
    For an overlay with one entry per id whose sets do not assign [id], the
    first item carrying an entry's id ends as that item with the entry's
    [set] assigned on top, field by field, and [_edited] set to [true], so
    each field of the [set] holds the overlay's value; items no entry
    targets are unchanged. *)
Theorem applyLocalEdits_overrides (ov : overlay) (its : list obj) :
  ∃ its', applyLocalEdits ov its = (its', Normal tt) ∧
    length its' = length its ∧
    (forallb (fun e => negb (id_in (e_id e) its)) (edited ov) = true →
     its' = its) ∧
    (overlay_keeps_ids ov = true →
     ∀ x, id_in x its = false →
          applyLocalEdits (overlay_without x ov) its = (its', Normal tt)) ∧
    (NoDup (e_id <$> edited ov) → overlay_keeps_ids ov = true →
     (∀ e i item,
        e ∈ edited ov → findIndex (has_id (e_id e)) its = Some i →
        its !! i = Some item →
        ∃ item',
          its' !! i = Some item' ∧
          item' = <["_edited" := JBool true]> (Object_assign item (e_set e)) ∧
          item' !! "_edited" = Some (JBool true) ∧
          (∀ f v, f ≠ "_edited" → e_set e !! f = Some v → item' !! f = Some v) ∧
          (∀ f, f ≠ "_edited" → e_set e !! f = None → item' !! f = item !! f)) ∧
     (∀ i, (∀ e, e ∈ edited ov → findIndex (has_id (e_id e)) its ≠ Some i) →
           its' !! i = its !! i)).
Proof.
  destruct (applyLocalEdits_normal (edited ov) its) as (its' & Hrun & Hlen).
  change (forEach apply_edit (edited ov) its) with (applyLocalEdits ov its)
    in Hrun.
  exists its'. split; [done|]. split; [done|]. split; [|split].
  - intros Habs.
    assert (Hnoop : applyLocalEdits ov its = (its, Normal tt)).
    { apply forEach_noop. intros e He. apply apply_edit_absent.
      rewrite forallb_forall in Habs. apply negb_true_iff, Habs.
      by apply list_elem_of_In. }
    congruence.
  - intros Hk x Hx. by rewrite (applyLocalEdits_without x ov its Hk Hx).
  - intros Hnd Hk.
    destruct (applyLocalEdits_targets (edited ov) its Hnd Hk)
      as (its2 & Hrun2 & _ & Hhit & Hmiss).
    change (forEach apply_edit (edited ov) its) with (applyLocalEdits ov its)
      in Hrun2.
    assert (its2 = its') as -> by congruence.
    split; [|done].
    intros e i item He Hf Hi. exists (edited_item e item).
    split; [by apply (Hhit e)|]. split; [done|].
    apply edited_item_fields.
Qed.

Lemma applyLocalEdits_overrides_witness :
  ∃ its',
    applyLocalEdits (Overlay [edit_name; edit_gone] None) [it_1; it_2]
    = (its', Normal tt) ∧
    ∃ item', its' !! 0 = Some item' ∧
             item' !! "item_name" = Some (JStr "Family letter") ∧
             item' !! "_edited" = Some (JBool true) ∧
             its' !! 1 = Some it_2.
Proof.
  destruct (applyLocalEdits_overrides (Overlay [edit_name; edit_gone] None)
              [it_1; it_2]) as (its' & Hrun & _ & _ & _ & Hinv).
  assert (Hnd : NoDup (e_id <$> [edit_name; edit_gone])).
  { apply (bool_decide_unpack _). vm_compute. exact I. }
  destruct (Hinv Hnd eq_refl) as [Hhit Hmiss].
  destruct (Hhit edit_name 0 it_1) as (item' & H0 & _ & Hed & Hset & _).
  { by left. } { reflexivity. } { reflexivity. }
  exists its'. split; [exact Hrun|].
  exists item'. split; [exact H0|].
  split; [by apply Hset|]. split; [exact Hed|].
  rewrite Hmiss; [reflexivity|].
  intros e He. apply elem_of_cons in He as [-> | He]; [discriminate|].
  apply list_elem_of_singleton in He as ->. discriminate.
Defined.

(** C5 as stated fails for overlays outside those two conditions.  An entry
    whose [set] assigns [id] diverts the entries after it: the item that
    carries [it_2] is left without the note recorded for it and unmarked,
    and the note lands on the item that was [it_1].  And of two entries for
    one id, the field of the first does not hold in the result. *)
Lemma overlay_override_counterexample :
  (id_in "it_2" [it_1; it_2] = true ∧
   e_set edit_note !! "notes" = Some (JStr "fragile") ∧
   ∃ item',
     applyLocalEdits (Overlay [edit_rename; edit_note] None) [it_1; it_2]
     = ([item'; it_2], Normal tt) ∧
     it_2 !! "notes" = None ∧ it_2 !! "_edited" = None ∧
     item' !! "box_id" = Some (JStr "DO3M") ∧
     item' !! "notes" = Some (JStr "fragile")) ∧
  (id_in "it_1" [it_1] = true ∧
   e_set edit_name !! "item_name" = Some (JStr "Family letter") ∧
   ∃ item',
     applyLocalEdits (Overlay [edit_name; edit_name_again] None) [it_1]
     = ([item'], Normal tt) ∧
     item' !! "item_name" = Some (JStr "Postcard")).
Proof.
  split.
  - split; [reflexivity|]. split; [reflexivity|].
    eexists. split; [reflexivity|]. repeat split; reflexivity.
  - split; [reflexivity|]. split; [reflexivity|].
    eexists. split; reflexivity.
Qed.

(** * Further properties of the engine *)

(** ** How mergeDelta completes *)

Lemma apply_update_length u its :
  length (apply_update u its).1 = length its.
Proof.
  destruct (apply_update_cases u its) as [[_ ->] | (i & item & _ & _ & ->)];
    [done|]. simpl. apply length_insert.
Qed.

Lemma update_stage_length us its :
  length (forEach apply_update us its).1 = length its.
Proof.
  revert its. induction us as [|u us IH]; intros its; [done|].
  simpl. unfold bind. pose proof (apply_update_length u its) as Hl.
  destruct (apply_update u its) as [its1 [[]|e]]; simpl in *; [|done].
  by rewrite IH.
Qed.

Lemma apply_update_no_append u its :
  no_append u = true → (apply_update u its).2 = Normal tt.
Proof.
  intros Hn.
  destruct (apply_update_cases u its) as [[_ ->] | (i & item & _ & _ & ->)];
    [done|]. by rewrite (update_item_no_append u item Hn).
Qed.

Lemma update_stage_no_append us its :
  forallb no_append us = true → (forEach apply_update us its).2 = Normal tt.
Proof.
  revert its. induction us as [|u us IH]; intros its Hn; [done|].
  simpl in Hn. apply andb_true_iff in Hn as [Hu Hn].
  simpl. unfold bind. pose proof (apply_update_no_append u its Hu) as Hc.
  destruct (apply_update u its) as [its1 c]. simpl in Hc. subst c.
  by apply IH.
Qed.

Lemma mergeDelta_no_append_normal d its :
  delta_no_append d = true → (mergeDelta d its).2 = Normal tt.
Proof.
  unfold delta_no_append. intros Hn. rewrite mergeDelta_stages.
  pose proof (update_stage_no_append _ (its ++ default [] (added d)) Hn) as Hc.
  destruct (forEach apply_update _ _) as [its2 c]. simpl in Hc. subst c.
  apply remove_stage_normal.
Qed.

(** X1. A delta none of whose [updated] entries carries
    [box_history_append] never throws: [mergeDelta] completes normally on
    every collection. *)
Theorem mergeDelta_without_append_completes (d : delta) (its : list obj) :
  delta_no_append d = true →
  ∃ its', mergeDelta d its = (its', Normal tt) ∧
          length its' ≤ length its + length (default [] (added d)).
Proof.
  unfold delta_no_append. intros Hn. rewrite mergeDelta_stages.
  pose proof (update_stage_no_append _ (its ++ default [] (added d)) Hn) as Hc.
  pose proof (update_stage_length (default [] (updated d))
                (its ++ default [] (added d))) as Hl.
  rewrite length_app in Hl.
  destruct (forEach apply_update _ _) as [its2 c]. simpl in Hc, Hl. subst c.
  exists (forEach apply_remove (default [] (removed d)) its2).1.
  split; [apply remove_stage_pair|].
  pose proof (remove_stage_sublist (default [] (removed d)) its2) as Hs.
  apply sublist_length in Hs. lia.
Qed.

Lemma mergeDelta_without_append_completes_witness :
  ∃ its', mergeDelta delta_annotate_remove [it_1; it_2] = (its', Normal tt) ∧
          length its' ≤ 2 + 0.
Proof.
  apply (mergeDelta_without_append_completes delta_annotate_remove
           [it_1; it_2]).
  reflexivity.
Defined.

Lemma update_stage_frame us its i item :
  its !! i = Some item →
  forallb (fun u => negb (has_id (u_id u) item)) us = true →
  (forEach apply_update us its).1 !! i = Some item.
Proof.
  revert its. induction us as [|u us IH]; intros its Hi Hno; [done|].
  simpl in Hno. apply andb_true_iff in Hno as [Hu Hno].
  apply negb_true_iff in Hu.
  assert (Hstep : (apply_update u its).1 !! i = Some item).
  { destruct (apply_update_cases u its) as [[_ ->] | (j & tgt & Hf & Hj & ->)];
      [done|]. simpl. rewrite list_lookup_insert_ne; [done|].
    intros ->. destruct (findIndex_Some _ _ _ Hf) as (b & Hb & Hpb).
    congruence. }
  simpl. unfold bind.
  destruct (apply_update u its) as [its1 [[]|e]]; simpl in *; [|done].
  by apply IH.
Qed.



Lemma apply_remove_length y its :
  length (apply_remove y its).1 ≤ length its ∧
  length its ≤ S (length (apply_remove y its).1).
Proof.
  unfold apply_remove. destruct (findIndex (has_id y) its) as [i|] eqn:Hf;
    simpl; [|lia].
  destruct (findIndex_Some _ _ _ Hf) as (a & Hi & _).
  rewrite length_delete by by exists a.
  apply lookup_lt_Some in Hi. lia.
Qed.

Lemma remove_stage_length rs its :
  length (forEach apply_remove rs its).1 ≤ length its ∧
  length its ≤ length (forEach apply_remove rs its).1 + length rs.
Proof.
  revert its. induction rs as [|y rs IH]; intros its; [simpl; lia|].
  rewrite forEach_remove_cons.
  pose proof (apply_remove_length y its). pose proof (IH (apply_remove y its).1).
  simpl. lia.
Qed.

(** X3. However it completes, [mergeDelta] leaves at most the items it
    found plus the added records, and each [removed] entry takes out at
    most one item. *)
Theorem mergeDelta_length_bounds (d : delta) (its : list obj) :
  length (mergeDelta d its).1 ≤ length its + length (default [] (added d)) ∧
  length its + length (default [] (added d))
  ≤ length (mergeDelta d its).1 + length (default [] (removed d)).
Proof.
  rewrite mergeDelta_stages.
  pose proof (update_stage_length (default [] (updated d))
                (its ++ default [] (added d))) as Hl.
  rewrite length_app in Hl.
  destruct (forEach apply_update _ _) as [its2 [[]|e']]; simpl in *.
  - pose proof (remove_stage_length (default [] (removed d)) its2). lia.
  - lia.
Qed.

(** ** What the [updated] stage writes *)

Lemma written_last f us u v old :
  default ∅ (u_set u) !! f = Some v → written f (us ++ [u]) old = Some v.
Proof. intros H. unfold written. rewrite foldl_app. simpl. by rewrite H. Qed.

(** X4. Last write wins, field by field.  With ids stable, when the
    [updated] stage completes, a field other than [box_history] of the
    first item carrying id [x] holds what the [set]s of the entries
    addressed to [x] wrote to it in order: the value of the last entry that
    sets the field, or the item's old value when none does. *)
Theorem updates_last_write_wins (us : list update) (its its2 : list obj)
    (x : string) (i : nat) (item : obj) (f : string) :
  forallb update_keeps_id us = true →
  findIndex (has_id x) its = Some i → its !! i = Some item →
  forEach apply_update us its = (its2, Normal tt) →
  f ≠ "box_history" →
  ∃ item',
    its2 !! i = Some item' ∧
    item' !! f = written f (updates_for x us) (item !! f) ∧
    (∀ u v, last (updates_for x us) = Some u →
            default ∅ (u_set u) !! f = Some v → item' !! f = Some v).
Proof.
  intros Hk Hf Hi Hrun Hne.
  destruct (update_stage_tracks x us its its2 i item Hk Hf Hi Hrun)
    as (item' & Hall & Hi').
  exists item'. split; [done|].
  pose proof (update_all_written _ _ _ f Hall Hne) as Hw.
  split; [done|]. intros u v Hlast Hv.
  apply last_Some in Hlast as [us' Hus]. rewrite Hw, Hus.
  by apply written_last.
Qed.

Lemma updates_last_write_wins_witness :
  ∃ item',
    (forEach apply_update (default [] (updated delta_annotate_remove))
       [it_1; it_2]).1 !! 0 = Some item' ∧
    item' !! "notes" = Some (JStr "keep flat").
Proof.
  destruct (updates_last_write_wins
              (default [] (updated delta_annotate_remove)) [it_1; it_2]
              (forEach apply_update (default [] (updated delta_annotate_remove))
                 [it_1; it_2]).1
              "it_1" 0 it_1 "notes")
    as (item' & H0 & _ & Hlast); try reflexivity; [discriminate|].
  exists item'. split; [exact H0|].
  apply (Hlast (Update "it_1" (Some {[ "notes" := JStr "keep flat" ]}) None));
    reflexivity.
Defined.

(** ** What mergeDelta leaves alone *)

Lemma remove_stage_frame rs its a :
  a ∈ its → forallb (fun y => negb (has_id y a)) rs = true →
  a ∈ (forEach apply_remove rs its).1.
Proof.
  revert its. induction rs as [|y rs IH]; intros its Hin Hno; [done|].
  simpl in Hno. apply andb_true_iff in Hno as [Hy Hno].
  apply negb_true_iff in Hy.
  rewrite forEach_remove_cons. apply IH; [|done].
  by apply apply_remove_keeps.
Qed.

(** X5. [mergeDelta] leaves alone what it does not target: an item of the
    collection, or an added record, whose id is neither the id of an
    [updated] entry nor listed in [removed] is in the collection afterwards,
    unchanged, however the delta completes. *)
Theorem mergeDelta_leaves_untargeted (d : delta) (its : list obj) (item : obj) :
  item ∈ its ++ default [] (added d) →
  untargeted d item = true →
  item ∈ (mergeDelta d its).1.
Proof.
  unfold untargeted. intros Hin [Hu Hr]%andb_true_iff.
  apply list_elem_of_lookup in Hin as [i Hi].
  rewrite mergeDelta_stages.
  pose proof (update_stage_frame _ _ i item Hi Hu) as Hkept.
  destruct (forEach apply_update _ _) as [its2 [[]|e]]; simpl in *.
  - apply remove_stage_frame; [|done]. apply list_elem_of_lookup. by exists i.
  - apply list_elem_of_lookup. by exists i.
Qed.

Lemma mergeDelta_leaves_untargeted_witness :
  it_2 ∈ (mergeDelta delta_append_remove [it_1; item_odd_history]).1 ∧
  rec_clipping ∈ (mergeDelta delta_add_remove [rec_clipping; it_1]).1.
Proof.
  split.
  - apply (mergeDelta_leaves_untargeted delta_append_remove
             [it_1; item_odd_history] it_2); [|reflexivity].
    apply elem_of_app. right. apply list_elem_of_singleton. reflexivity.
  - apply (mergeDelta_leaves_untargeted delta_add_remove
             [rec_clipping; it_1] rec_clipping); [|reflexivity].
    apply elem_of_app. left. apply elem_of_cons. by left.
Defined.

(** X6. [mergeDelta] neither reorders items nor invents ids: with ids
    stable, the ids of the collection after a delta are, in order, a
    subsequence of the ids before it followed by the ids of the added
    records. *)
Theorem mergeDelta_keeps_order (d : delta) (its : list obj) :
  delta_keeps_ids d = true →
  ids (mergeDelta d its).1 `sublist_of` ids its ++ ids (default [] (added d)).
Proof.
  intros Hk. unfold ids at 2 3. rewrite <- fmap_app.
  by apply mergeDelta_ids_sublist.
Qed.

Lemma mergeDelta_keeps_order_witness :
  ids (mergeDelta delta_annotate_remove [it_1; it_2]).1
  `sublist_of` ids [it_1; it_2] ++ ids [].
Proof.
  apply (mergeDelta_keeps_order delta_annotate_remove [it_1; it_2]).
  reflexivity.
Defined.

(** ** Loading without deltas, and the warnings of a load *)

(** X7. With no delta fetched (no updates index, an empty manifest, or no
    file that can be fetched) and an empty overlay, the reconciled
    collection is the list of base items. *)
Theorem reconcile_identity (w : world) (a : app) (b : base_doc) :
  base_file w = Some b →
  fetched_deltas w = [] →
  edited (localEdits a) = [] →
  items (loadCatalogData w a) = default [] (b_items b).
Proof.
  intros Hb Hd He. rewrite (loadCatalogData_items w a b Hb), Hd.
  unfold applyLocalEdits. by rewrite He.
Qed.

Lemma reconcile_identity_witness :
  items (loadCatalogData world_people (fresh_app (Overlay [] None))) = [it_4].
Proof.
  apply (reconcile_identity world_people (fresh_app (Overlay [] None))
           (BaseDoc (Some [it_4]) (Some "1.0.0")));
    reflexivity.
Defined.

(** X8. When no fetched delta carries [box_history_append], the warnings
    of the delta loop are, in manifest order, one line for each file that
    could not be fetched, and nothing else. *)
Theorem load_deltas_warns_per_missing_file (fetch : string → option delta)
    (files : list string) (its : list obj) (ws : list string) :
  forallb delta_no_append (fetched fetch files) = true →
  (load_deltas fetch files its ws).2
  = ws ++ (delta_warning <$> filter (fun f => fetch f = None) files).
Proof.
  revert its ws. induction files as [|f files IH]; intros its ws Hn.
  { simpl. by rewrite app_nil_r. }
  unfold fetched in Hn. simpl in *.
  destruct (fetch f) as [d|] eqn:Hf; simpl in *.
  - apply andb_true_iff in Hn as [Hd Hn].
    rewrite filter_cons_False by by rewrite Hf.
    pose proof (mergeDelta_no_append_normal d its Hd) as Hc.
    destruct (mergeDelta d its) as [its' c]. simpl in Hc. subst c.
    by apply IH.
  - rewrite filter_cons_True by done. rewrite IH by done.
    by rewrite <- app_assoc.
Qed.

Lemma load_deltas_warns_per_missing_file_witness :
  warnings (loadCatalogData world_one_missing (fresh_app (Overlay [] None)))
  = [delta_warning "2025-01-07.json"] ∧
  (load_deltas (delta_file world_one_missing)
     ["2025-01-07.json"; "2025-01-08.json"] [it_1] []).2
  = [delta_warning "2025-01-07.json"].
Proof.
  split; [reflexivity|].
  apply (load_deltas_warns_per_missing_file (delta_file world_one_missing)
           ["2025-01-07.json"; "2025-01-08.json"] [it_1] []).
  reflexivity.
Defined.

(** ** The filter sets *)

Lemma same_value_eq x y : same_value x y = true → x = y.
Proof.
  destruct x, y; simpl; try done.
  - intros H. f_equal. by apply Bool.eqb_prop.
  - intros H. f_equal. by apply Z.eqb_eq.
  - intros H. f_equal. by apply String.eqb_eq.
Qed.

Lemma same_prop_eq x y : same_prop x y = true → x = y.
Proof.
  destruct x, y; simpl; try done. intros H. f_equal. by apply same_value_eq.
Qed.

Lemma same_value_sym x y : same_value x y = same_value y x.
Proof.
  destruct x, y; simpl; try done.
  - by destruct b, b0.
  - apply Z.eqb_sym.
  - apply String.eqb_sym.
Qed.

Lemma same_prop_sym x y : same_prop x y = same_prop y x.
Proof. destruct x, y; simpl; try done. apply same_value_sym. Qed.

Lemma set_add_elem {A} (same : A → A → bool) x y s :
  (∀ a b, same a b = true → a = b) →
  y ∈ set_add same x s ↔ y = x ∨ y ∈ s.
Proof.
  intros Hsame. unfold set_add.
  destruct (existsb (same x) s) eqn:E.
  - split; [by right|]. intros [-> | H]; [|done].
    apply existsb_exists in E as (z & Hz & Hxz).
    apply Hsame in Hxz as ->. by apply list_elem_of_In.
  - rewrite elem_of_app, list_elem_of_singleton. tauto.
Qed.

Lemma distinct_snoc l x :
  distinct l = true → existsb (same_prop x) l = false →
  distinct (l ++ [x]) = true.
Proof.
  induction l as [|y l IH]; simpl; [done|].
  intros [Hy Hd]%andb_true_iff [Hxy Hx]%orb_false_iff.
  rewrite (IH Hd Hx), andb_true_r. apply negb_true_iff in Hy.
  rewrite existsb_app, Hy. simpl. by rewrite same_prop_sym, Hxy.
Qed.

Lemma distinct_set_add x s :
  distinct s = true → distinct (set_add same_prop x s) = true.
Proof.
  intros Hd. unfold set_add. destruct (existsb (same_prop x) s) eqn:E; [done|].
  by apply distinct_snoc.
Qed.

Lemma add_people_elem ps s y :
  y ∈ foldl (fun s person => set_add same_value person s) s ps
  ↔ y ∈ s ∨ y ∈ ps.
Proof.
  revert s. induction ps as [|p ps IH]; intros s; simpl.
  - rewrite elem_of_nil. tauto.
  - rewrite IH, (set_add_elem _ _ _ _ same_value_eq), elem_of_cons. tauto.
Qed.



Lemma findIndex_ext {A} (p q : A → bool) l :
  (∀ a, p a = q a) → findIndex p l = findIndex q l.
Proof.
  intros H. induction l as [|a l IH]; simpl; [done|]. by rewrite H, IH.
Qed.

Lemma same_prop_has_id x item :
  same_prop (item_id item) (Some (JStr x)) = has_id x item.
Proof. unfold has_id. by destruct (item_id item) as [[]|]. Qed.

Section StoredOverlayFacts.

Variable code_units : string → list string.

(** On the value of a well-formed entry the stored callback is the typed
    one, and so for the overlay and for the load. *)
Lemma apply_edit_stored_value e its :
  apply_edit_stored code_units (edit_value e) its = apply_edit e its.
Proof.
  unfold apply_edit_stored, apply_edit, edit_value, prop.
  rewrite lookup_insert_eq.
  rewrite (findIndex_ext _ (has_id (e_id e)))
    by (intros item; apply same_prop_has_id).
  rewrite lookup_insert_ne by done. by rewrite lookup_singleton_eq.
Qed.

Lemma forEach_edit_stored_value es its :
  forEach (apply_edit_stored code_units) (edit_value <$> es) its
  = forEach apply_edit es its.
Proof.
  revert its. induction es as [|e es IH]; intros its; [done|].
  csimpl. unfold bind. rewrite apply_edit_stored_value.
  destruct (apply_edit e its) as [its1 [[]|x]]; [apply IH|done].
Qed.

Lemma applyLocalEdits_stored_value ov its :
  applyLocalEdits_stored code_units (overlay_value ov) its
  = applyLocalEdits ov its.
Proof.
  unfold applyLocalEdits_stored, overlay_value, applyLocalEdits, prop.
  destruct (timestamp ov) as [t|].
  - rewrite lookup_insert_eq. apply forEach_edit_stored_value.
  - rewrite lookup_singleton_eq. apply forEach_edit_stored_value.
Qed.

Lemma loadCatalogData_stored_value w a :
  loadCatalogData_stored code_units w (overlay_value (localEdits a)) a
  = loadCatalogData w a.
Proof.
  unfold loadCatalogData_stored, loadCatalogData.
  destruct (base_file w) as [b|]; [|done].
  set (loaded := match index_file w with Some _ => _ | None => _ end).
  destruct loaded as [[its1 ws] label].
  rewrite applyLocalEdits_stored_value.
  destruct (applyLocalEdits_normal (edited (localEdits a)) its1)
    as (its2 & Hrun & _).
  change (forEach apply_edit (edited (localEdits a)) its1)
    with (applyLocalEdits (localEdits a) its1) in Hrun.
  by rewrite Hrun.
Qed.





End StoredOverlayFacts.


Lemma extract_item_sets item fs fs1 :
  extract_item item fs = (fs1, Normal tt) →
  f_boxes fs1 = set_add same_prop (item !! "box_id") (f_boxes fs) ∧
  f_categories fs1 = set_add same_prop (item !! "category") (f_categories fs) ∧
  f_people fs1
  = foldl (fun s person => set_add same_value person s) (f_people fs)
          (people_of item).
Proof.
  unfold extract_item, people_of.
  destruct (truthy (item !! "people")) eqn:Ht.
  - destruct (item !! "people") as [[]|]; try done. by intros [= <-].
  - intros [= <-]. simpl. repeat split.
    destruct (item !! "people") as [[]|]; try done.
Qed.

Lemma extract_filters_sets its fs0 fs :
  extract_filters its fs0 = (fs, Normal tt) →
  (∀ x, x ∈ f_boxes fs
        ↔ x ∈ f_boxes fs0 ∨ ∃ item, item ∈ its ∧ item !! "box_id" = x) ∧
  (∀ x, x ∈ f_categories fs
        ↔ x ∈ f_categories fs0 ∨ ∃ item, item ∈ its ∧ item !! "category" = x) ∧
  (∀ p, p ∈ f_people fs
        ↔ p ∈ f_people fs0 ∨ ∃ item, item ∈ its ∧ p ∈ people_of item) ∧
  (distinct (f_boxes fs0) = true → distinct (f_boxes fs) = true) ∧
  (distinct (f_categories fs0) = true → distinct (f_categories fs) = true).
Proof.
  revert fs0. induction its as [|item its IH]; intros fs0; simpl.
  { intros [= <-]. repeat split; try tauto; try (by left);
      intros [H | (item & Hin & _)]; try done; by apply elem_of_nil in Hin. }
  destruct (extract_item item fs0) as [fs1 [[]|e]] eqn:Hitem; [|done].
  intros Hrun. destruct (IH fs1 Hrun) as (Hb & Hc & Hp & Hdb & Hdc).
  destruct (extract_item_sets item fs0 fs1 Hitem) as (Eb & Ec & Ep).
  split; [|split; [|split; [|split]]].
  - intros x. rewrite Hb, Eb, (set_add_elem _ _ _ _ same_prop_eq).
    setoid_rewrite elem_of_cons. split.
    + intros [[-> | H] | (it & Hin & He)];
        [right; exists item; by split; [left|] | by left
        | right; exists it; by split; [right|]].
    + intros [H | (it & [-> | Hin] & He)];
        [left; by right | left; by left | right; by exists it].
  - intros x. rewrite Hc, Ec, (set_add_elem _ _ _ _ same_prop_eq).
    setoid_rewrite elem_of_cons. split.
    + intros [[-> | H] | (it & Hin & He)];
        [right; exists item; by split; [left|] | by left
        | right; exists it; by split; [right|]].
    + intros [H | (it & [-> | Hin] & He)];
        [left; by right | left; by left | right; by exists it].
  - intros p. rewrite Hp, Ep, add_people_elem.
    setoid_rewrite elem_of_cons. split.
    + intros [[H | H] | (it & Hin & He)];
        [by left | right; exists item; by split; [left|]
        | right; exists it; by split; [right|]].
    + intros [H | (it & [-> | Hin] & He)];
        [left; by left | left; by right | right; by exists it].
  - intros Hd. apply Hdb. rewrite Eb. by apply distinct_set_add.
  - intros Hd. apply Hdc. rewrite Ec. by apply distinct_set_add.
Qed.

(** X10. When the filter sets are filled from empty without a throw, the
    box set holds exactly the [box_id]s of the items, the category set
    exactly their [category]s and the people set exactly the members of
    their [people] arrays, and no box or category occurs twice. *)
Theorem filter_sets_cover_items (its : list obj) (fs : filters) :
  extract_filters its (Filters [] [] []) = (fs, Normal tt) →
  (∀ x, x ∈ f_boxes fs ↔ ∃ item, item ∈ its ∧ item !! "box_id" = x) ∧
  (∀ x, x ∈ f_categories fs ↔ ∃ item, item ∈ its ∧ item !! "category" = x) ∧
  (∀ p, p ∈ f_people fs ↔ ∃ item, item ∈ its ∧ p ∈ people_of item) ∧
  distinct (f_boxes fs) = true ∧
  distinct (f_categories fs) = true.
Proof.
  intros Hrun.
  destruct (extract_filters_sets its _ fs Hrun) as (Hb & Hc & Hp & Hdb & Hdc).
  simpl in *. split; [|split; [|split; [|split]]].
  - intros x. rewrite Hb, elem_of_nil. tauto.
  - intros x. rewrite Hc, elem_of_nil. tauto.
  - intros p. rewrite Hp, elem_of_nil. tauto.
  - by apply Hdb.
  - by apply Hdc.
Qed.

Lemma filter_sets_cover_items_witness :
  ∃ fs,
    extract_filters [it_1; it_4; it_2] (Filters [] [] []) = (fs, Normal tt) ∧
    f_boxes fs = [Some (JStr "DO3M"); Some (JStr "KT2L")] ∧
    (Some (JStr "KT2L") ∈ f_boxes fs
     ↔ ∃ item, item ∈ [it_1; it_4; it_2] ∧
               item !! "box_id" = Some (JStr "KT2L")) ∧
    distinct (f_boxes fs) = true.
Proof.
  eexists. split; [reflexivity|]. split; [reflexivity|].
  destruct (filter_sets_cover_items [it_1; it_4; it_2] _ eq_refl)
    as (Hb & _ & _ & Hd & _).
  split; [apply Hb | exact Hd].
Defined.

(** ** Recording edits *)

Lemma addLocalEdit_edited stringify itemId field v now a :
  edited (localEdits (addLocalEdit stringify itemId field v now a))
  = record_edit itemId field v (edited (localEdits a)).
Proof. done. Qed.

Lemma addLocalEdit_items stringify itemId field v now a :
  items (addLocalEdit stringify itemId field v now a)
  = match findIndex (has_id itemId) (items a) with
    | Some i => alter (memory_edit field v) i (items a)
    | None => items a
    end.
Proof. done. Qed.

Lemma findIndex_snoc {A} (p : A → bool) l x :
  findIndex p (l ++ [x])
  = match findIndex p l with
    | Some i => Some i
    | None => if p x then Some (length l) else None
    end.
Proof.
  induction l as [|y l IH]; simpl.
  - by destruct (p x).
  - destruct (p y); [done|]. rewrite IH.
    destruct (findIndex p l); [done|]. by destruct (p x).
Qed.

Lemma findIndex_alter {A} (p : A → bool) (g : A → A) i l :
  (∀ a, p (g a) = p a) → findIndex p (alter g i l) = findIndex p l.
Proof.
  intros Hg. revert i. induction l as [|y l IH]; intros [|i]; simpl; try done.
  - by rewrite Hg.
  - destruct (p y); [done|]. f_equal. apply IH.
Qed.

Lemma find_entry_hit itemId es i :
  find_entry itemId es = Some i → ∃ e, es !! i = Some e ∧ e_id e = itemId.
Proof.
  intros H. destruct (findIndex_Some _ _ _ H) as (e & He & Hp).
  exists e. split; [done|]. by apply String.eqb_eq.
Qed.

(** X11. What [addLocalEdit] records can be read back: the overlay holds
    the new value for the field of the item, and the value recorded for
    every other field of this or another item is what it was. *)
Theorem addLocalEdit_read_back (stringify : overlay → string)
    (itemId field : string) (v : value) (now : string) (a : app) :
  overlay_get (localEdits (addLocalEdit stringify itemId field v now a))
              itemId field = Some v ∧
  ∀ itemId' field',
    itemId' ≠ itemId ∨ field' ≠ field →
    overlay_get (localEdits (addLocalEdit stringify itemId field v now a))
                itemId' field'
    = overlay_get (localEdits a) itemId' field'.
Proof.
  unfold overlay_get. rewrite addLocalEdit_edited. unfold record_edit.
  set (es := edited (localEdits a)).
  set (g := fun e => Edit (e_id e) (<[field := v]> (e_set e))).
  destruct (find_entry itemId es) as [i|] eqn:Hf.
  - destruct (find_entry_hit _ _ _ Hf) as (e & He & Hid).
    assert (Hfind : ∀ x, find_entry x (alter g i es) = find_entry x es).
    { intros x. unfold find_entry. by apply findIndex_alter. }
    split.
    + rewrite Hfind, Hf, list_lookup_alter_eq, He. simpl.
      apply lookup_insert_eq.
    + intros itemId' field' Hne. rewrite Hfind.
      destruct (find_entry itemId' es) as [j|] eqn:Hf'; [|done].
      destruct (decide (i = j)) as [<- | Hij].
      * rewrite list_lookup_alter_eq, He. simpl.
        destruct (find_entry_hit _ _ _ Hf') as (e' & He' & Hid').
        assert (e' = e) as -> by congruence.
        apply lookup_insert_ne. destruct Hne as [Hne | Hne]; congruence.
      * by rewrite list_lookup_alter_ne.
  - unfold find_entry in *. split.
    + rewrite findIndex_snoc, Hf.
      simpl. rewrite String.eqb_refl. rewrite list_lookup_middle by done.
      simpl. apply lookup_insert_eq.
    + intros itemId' field' Hne. rewrite findIndex_snoc.
      destruct (findIndex (fun e => String.eqb (e_id e) itemId') es)
        as [j|] eqn:Hf'.
      * destruct (findIndex_Some _ _ _ Hf') as (e' & He' & _).
        by rewrite (lookup_app_l_Some _ _ _ _ He'), He'.
      * simpl. destruct (String.eqb_spec itemId itemId') as [<- | Hid]; [|done].
        rewrite list_lookup_middle by done. simpl.
        rewrite lookup_insert_ne; [apply lookup_empty|].
        destruct Hne as [Hne | Hne]; congruence.
Qed.

Lemma addLocalEdit_read_back_witness :
  overlay_get
    (localEdits (addLocalEdit stringify_sample "it_1" "notes" (JStr "fragile")
                   "2025-01-06T00:00:00.000Z"
                   (fresh_app (Overlay [edit_name] None))))
    "it_1" "notes" = Some (JStr "fragile") ∧
  overlay_get
    (localEdits (addLocalEdit stringify_sample "it_1" "notes" (JStr "fragile")
                   "2025-01-06T00:00:00.000Z"
                   (fresh_app (Overlay [edit_name] None))))
    "it_1" "item_name" = Some (JStr "Family letter").
Proof.
  destruct (addLocalEdit_read_back stringify_sample "it_1" "notes"
              (JStr "fragile") "2025-01-06T00:00:00.000Z"
              (fresh_app (Overlay [edit_name] None))) as [Hnew Hold].
  split; [exact Hnew|].
  rewrite (Hold "it_1" "item_name"); [reflexivity|]. right. discriminate.
Defined.

Lemma record_edit_cons itemId field v e es :
  record_edit itemId field v (e :: es)
  = if String.eqb (e_id e) itemId
    then Edit (e_id e) (<[field := v]> (e_set e)) :: es
    else e :: record_edit itemId field v es.
Proof.
  unfold record_edit, find_entry. simpl.
  destruct (String.eqb (e_id e) itemId); [done|].
  by destruct (findIndex _ es).
Qed.

Lemma memory_edit_id field v item :
  field ≠ "id" → item_id (memory_edit field v item) = item_id item.
Proof.
  intros H. unfold memory_edit. by rewrite !item_id_insert.
Qed.

Lemma memory_edit_edited_item e field v item :
  edited_item (Edit (e_id e) (<[field := v]> (e_set e))) item
  = memory_edit field v (edited_item e item).
Proof.
  unfold edited_item, memory_edit, Object_assign. simpl.
  apply map_eq. intros k.
  destruct (decide (k = "_edited")) as [-> | Hk].
  { by rewrite !lookup_insert_eq. }
  rewrite !(lookup_insert_ne _ "_edited") by done.
  rewrite <- insert_union_l.
  destruct (decide (k = field)) as [-> | Hf].
  - by rewrite !lookup_insert_eq.
  - rewrite !(lookup_insert_ne _ field) by done.
    by rewrite lookup_insert_ne.
Qed.

Lemma memory_edit_new_entry itemId field v item :
  edited_item (Edit itemId (<[field := v]> ∅)) item = memory_edit field v item.
Proof.
  unfold edited_item, memory_edit, Object_assign. simpl.
  by rewrite <- insert_union_l, (left_id_L ∅ (∪)).
Qed.

Lemma list_insert_as_alter {A} (g : A → A) (l : list A) i x :
  l !! i = Some x → <[i := g x]> l = alter g i l.
Proof.
  revert i. induction l as [|y l IH]; intros [|i]; simpl; try done.
  - by intros [= ->].
  - intros H. f_equal. by apply IH.
Qed.

(** Entries for other ids do not see an in-memory edit of the item that
    carries [itemId]. *)
Lemma apply_edits_alter_commute (g : obj → obj) itemId rest its i t :
  (∀ a, item_id (g a) = item_id a) →
  its !! i = Some t → has_id itemId t = true →
  Forall (fun e => e_id e ≠ itemId) rest →
  (forEach apply_edit rest (alter g i its)).1
  = alter g i (forEach apply_edit rest its).1.
Proof.
  intros Hg. revert its. induction rest as [|e rest IH]; intros its Hi Ht Hne;
    [done|].
  apply Forall_cons in Hne as [He Hne].
  assert (Hids : ids (alter g i its) = ids its).
  { unfold ids. rewrite (list_fmap_alter item_id g id).
    - by rewrite list_alter_id.
    - apply Forall_forall. intros a _. apply Hg. }
  simpl. unfold bind.
  destruct (apply_edit_cases e its) as [[Hs Hnone] | (j & tgt & Hfj & Hj & Hs)].
  - rewrite Hs. rewrite apply_edit_absent.
    + by apply IH.
    + rewrite (id_in_ids _ _ its Hids). by apply findIndex_None.
  - rewrite Hs.
    assert (j ≠ i) as Hji.
    { intros ->. destruct (findIndex_Some _ _ _ Hfj) as (b & Hb & Hpb).
      apply He. apply (has_id_inj _ _ t); [|done]. congruence. }
    rewrite (apply_edit_present e (alter g i its) j tgt).
    + simpl. rewrite list_insert_alter, list_alter_alter_ne by done.
      rewrite <- list_insert_alter. apply IH; [|done|done].
      by rewrite list_lookup_insert_ne.
    + by rewrite (findIndex_ids _ _ its Hids).
    + by rewrite list_lookup_alter_ne.
Qed.

Lemma record_edit_reload itemId field v es its :
  field ≠ "id" →
  NoDup (e_id <$> es) →
  forallb (fun e => keeps_id (e_set e)) es = true →
  (forEach apply_edit (record_edit itemId field v es) its).1
  = match findIndex (has_id itemId) its with
    | Some i => alter (memory_edit field v) i (forEach apply_edit es its).1
    | None => (forEach apply_edit es its).1
    end.
Proof.
  intros Hfield. revert its.
  induction es as [|e es IH]; intros its Hnd Hk.
  { unfold record_edit. simpl. unfold bind, ret.
    destruct (apply_edit_cases (Edit itemId (<[field := v]> ∅)) its)
      as [[Hs Hnone] | (i & t & Hf & Hi & Hs)]; simpl in *; rewrite Hs.
    - by rewrite Hnone.
    - rewrite Hf. simpl. rewrite memory_edit_new_entry.
      by apply list_insert_as_alter. }
  rewrite fmap_cons in Hnd. apply NoDup_cons in Hnd as [Hfresh Hnd].
  simpl in Hk. apply andb_true_iff in Hk as [Hke Hk].
  rewrite record_edit_cons.
  destruct (String.eqb_spec (e_id e) itemId) as [Heq | Hne].
  - assert (Hrest : Forall (fun e' => e_id e' ≠ itemId) es).
    { apply Forall_forall. intros e' Hin Hid. apply Hfresh.
      rewrite Heq, <- Hid. by apply list_elem_of_fmap_2. }
    simpl. unfold bind.
    destruct (apply_edit_cases e its) as [[Hs Hnone] | (i & t & Hf & Hi & Hs)].
    + rewrite Hs. rewrite Heq in Hnone. rewrite Hnone.
      rewrite apply_edit_absent; [done|]. simpl. rewrite Heq.
      by apply findIndex_None.
    + rewrite Hs. rewrite Heq in Hf. rewrite Hf.
      rewrite (apply_edit_present _ its i t); [|by simpl; rewrite Heq|done].
      simpl. rewrite memory_edit_edited_item.
      rewrite <- (list_insert_insert_eq its i
                    (memory_edit field v (edited_item e t)) (edited_item e t)).
      rewrite (list_insert_as_alter (memory_edit field v)
                 (<[i := edited_item e t]> its) i (edited_item e t)).
      * apply (apply_edits_alter_commute _ itemId _ _ _ (edited_item e t)).
        -- intros a. by apply memory_edit_id.
        -- apply list_lookup_insert_eq. by eapply lookup_lt_Some.
        -- destruct (findIndex_Some _ _ _ Hf) as (b & Hb & Hpb).
           assert (b = t) as -> by congruence.
           rewrite <- Hpb. apply has_id_item_id. by apply edited_item_id.
        -- done.
      * apply list_lookup_insert_eq. by eapply lookup_lt_Some.
  - simpl. unfold bind.
    pose proof (apply_edit_ids e its Hke) as Hids.
    destruct (apply_edit_cases e its) as [[Hs _] | (j & tgt & _ & _ & Hs)];
      rewrite Hs in Hids |- *; simpl in Hids |- *.
    + by apply IH.
    + rewrite (IH _ Hnd Hk). by rewrite (findIndex_ids _ _ its Hids).
Qed.

Lemma loadCatalogData_localEdits w a :
  localEdits (loadCatalogData w a) = localEdits a.
Proof.
  unfold loadCatalogData. destruct (base_file w) as [b|]; [|done].
  destruct (index_file w) as [idx|].
  - destruct (load_deltas _ _ _ _) as [its ws]. simpl.
    by destruct (extract_filters _ _) as [fs [[]|e]].
  - simpl. by destruct (extract_filters _ _) as [fs [[]|e]].
Qed.

Lemma addLocalEdit_reload stringify itemId field v now a base :
  field ≠ "id" →
  NoDup (e_id <$> edited (localEdits a)) →
  overlay_keeps_ids (localEdits a) = true →
  items a = (applyLocalEdits (localEdits a) base).1 →
  items (addLocalEdit stringify itemId field v now a)
  = (applyLocalEdits (localEdits (addLocalEdit stringify itemId field v now a))
       base).1.
Proof.
  intros Hf Hnd Hk Hitems.
  rewrite addLocalEdit_items. unfold applyLocalEdits.
  rewrite addLocalEdit_edited, (record_edit_reload _ _ _ _ _ Hf Hnd Hk).
  fold (applyLocalEdits (localEdits a) base). rewrite <- Hitems.
  rewrite (findIndex_ids itemId (items a) base); [done|].
  rewrite Hitems. by apply applyLocalEdits_ids.
Qed.

(** X12. An edit made in memory is what a reload reconstructs.  After
    [saveEdit] on a freshly loaded catalog, for a field other than [id] and
    an overlay with one entry per id whose sets do not assign [id], loading
    the same files again with the overlay now recorded gives the very
    collection that is in memory. *)
Theorem edit_survives_reload (w : world) (ov : overlay) (b : base_doc)
    (stringify : overlay → string) (trim : string → string)
    (itemId fieldName currentValue inputValue now : string) :
  base_file w = Some b →
  fieldName ≠ "id" →
  NoDup (e_id <$> edited ov) →
  overlay_keeps_ids ov = true →
  items (loadCatalogData w
           (fresh_app
              (localEdits
                 (saveEdit stringify trim itemId fieldName currentValue
                           inputValue now
                           (loadCatalogData w (fresh_app ov))))))
  = items (saveEdit stringify trim itemId fieldName currentValue inputValue
                    now (loadCatalogData w (fresh_app ov))).
Proof.
  intros Hb Hf Hnd Hk.
  set (a := loadCatalogData w (fresh_app ov)).
  assert (Hov : localEdits a = ov) by apply loadCatalogData_localEdits.
  assert (Hitems : items a
                   = (applyLocalEdits (localEdits a)
                        (replay (fetched_deltas w) (default [] (b_items b)))).1).
  { unfold a. rewrite (loadCatalogData_items w _ b Hb).
    by rewrite loadCatalogData_localEdits. }
  rewrite (loadCatalogData_items w _ b Hb). simpl.
  unfold saveEdit. destruct (_ && _); [|done].
  symmetry. apply addLocalEdit_reload; try done; by rewrite Hov.
Qed.

Lemma edit_survives_reload_witness :
  items (loadCatalogData world_sound
           (fresh_app
              (localEdits
                 (saveEdit stringify_sample ascii_trim "it_1" "notes"
                           "fragile" " keep flat " "2025-01-06T00:00:00.000Z"
                           (loadCatalogData world_sound
                              (fresh_app (Overlay [edit_name] None)))))))
  = items (saveEdit stringify_sample ascii_trim "it_1" "notes" "fragile"
                    " keep flat " "2025-01-06T00:00:00.000Z"
                    (loadCatalogData world_sound
                       (fresh_app (Overlay [edit_name] None)))).
Proof.
  apply (edit_survives_reload world_sound (Overlay [edit_name] None)
           (BaseDoc (Some [it_1]) (Some "1.0.0")));
    [reflexivity | discriminate | | reflexivity].
  apply (bool_decide_unpack _). vm_compute. exact I.
Defined.

Lemma record_edit_keeps_ids itemId field v es :
  field ≠ "id" →
  forallb (fun e => keeps_id (e_set e)) es = true →
  forallb (fun e => keeps_id (e_set e)) (record_edit itemId field v es) = true.
Proof.
  intros Hf. assert (Hins : ∀ s : obj, keeps_id s = true →
                                       keeps_id (<[field := v]> s) = true).
  { intros s. unfold keeps_id. by rewrite lookup_insert_ne. }
  induction es as [|e es IH]; intros Hk.
  { unfold record_edit. simpl. rewrite andb_true_r. apply Hins, keeps_id_empty. }
  simpl in Hk. apply andb_true_iff in Hk as [He Hk].
  rewrite record_edit_cons. destruct (String.eqb (e_id e) itemId); simpl.
  - by rewrite (Hins _ He), Hk.
  - by rewrite He, (IH Hk).
Qed.

(** X13. [saveEdit] keeps the overlay well formed: when the field edited is
    not [id], an overlay with one entry per item id whose sets do not
    assign [id] is still such an overlay afterwards. *)
Theorem saveEdit_keeps_overlay_invariants (stringify : overlay → string)
    (trim : string → string)
    (itemId fieldName currentValue inputValue now : string) (a : app) :
  fieldName ≠ "id" →
  NoDup (e_id <$> edited (localEdits a)) →
  overlay_keeps_ids (localEdits a) = true →
  NoDup (e_id <$> edited (localEdits
                            (saveEdit stringify trim itemId fieldName
                                      currentValue inputValue now a))) ∧
  overlay_keeps_ids (localEdits (saveEdit stringify trim itemId fieldName
                                          currentValue inputValue now a))
  = true.
Proof.
  intros Hf Hnd Hk. unfold saveEdit. destruct (_ && _); [|done].
  split.
  - by apply addLocalEdit_one_entry_per_id.
  - unfold overlay_keeps_ids. rewrite addLocalEdit_edited.
    by apply record_edit_keeps_ids.
Qed.

Lemma saveEdit_keeps_overlay_invariants_witness :
  NoDup (e_id <$> edited (localEdits
           (saveEdit stringify_sample ascii_trim "it_2" "notes" "" "fragile"
                     "2025-01-06T00:00:00.000Z"
                     (fresh_app (Overlay [edit_name] None))))) ∧
  overlay_keeps_ids
    (localEdits (saveEdit stringify_sample ascii_trim "it_2" "notes" ""
                          "fragile" "2025-01-06T00:00:00.000Z"
                          (fresh_app (Overlay [edit_name] None))))
  = true.
Proof.
  apply (saveEdit_keeps_overlay_invariants stringify_sample ascii_trim
           "it_2" "notes" "" "fragile" "2025-01-06T00:00:00.000Z"
           (fresh_app (Overlay [edit_name] None)));
    [discriminate | | reflexivity].
  apply (bool_decide_unpack _). vm_compute. exact I.
Defined.

(** X14. What [addLocalEdit] writes is what the next [loadLocalEdits]
    reads: with working storage, the overlay read back is the parse of the
    text just written; with storage that throws, nothing is written and no
    error escapes, so the edit lives in memory only and the next load
    falls back to the default overlay. *)
Theorem addLocalEdit_persists (parse : string → option value)
    (stringify : overlay → string) (itemId field : string) (v : value)
    (now : string) (a : app) :
  (broken (store a) = false →
   ∀ stored,
     stringify (localEdits (addLocalEdit stringify itemId field v now a)) ≠ "" →
     parse (stringify (localEdits (addLocalEdit stringify itemId field v now a)))
     = Some stored →
     loadLocalEdits parse (store (addLocalEdit stringify itemId field v now a))
     = stored) ∧
  (broken (store a) = true →
   store (addLocalEdit stringify itemId field v now a) = store a ∧
   loadLocalEdits parse (store (addLocalEdit stringify itemId field v now a))
   = default_edits ∧
   overlay_get (localEdits (addLocalEdit stringify itemId field v now a))
               itemId field = Some v).
Proof.
  split.
  - intros Hb stored Hne Hp.
    set (a' := addLocalEdit stringify itemId field v now a) in *.
    assert (Hstore : store a' = Storage (Some (stringify (localEdits a'))) false).
    { unfold a', addLocalEdit, saveLocalEdits. simpl. by rewrite Hb. }
    rewrite Hstore. unfold loadLocalEdits. cbn [broken catalog_edits].
    destruct (String.eqb_spec (stringify (localEdits a')) "") as [He | _];
      [by destruct Hne|]. by rewrite Hp.
  - intros Hb. split; [|split].
    + unfold addLocalEdit, saveLocalEdits. simpl. by rewrite Hb.
    + unfold addLocalEdit, saveLocalEdits, loadLocalEdits. simpl.
      by rewrite !Hb.
    + unfold overlay_get. rewrite addLocalEdit_edited.
      unfold record_edit. set (es := edited (localEdits a)).
      destruct (find_entry itemId es) as [i|] eqn:Hf.
      * destruct (find_entry_hit _ _ _ Hf) as (e & He & Hid).
        unfold find_entry. rewrite findIndex_alter by done.
        fold (find_entry itemId es). rewrite Hf, list_lookup_alter_eq, He.
        simpl. apply lookup_insert_eq.
      * unfold find_entry in *. rewrite findIndex_snoc, Hf. simpl.
        rewrite String.eqb_refl, list_lookup_middle by done. simpl.
        apply lookup_insert_eq.
Qed.

Lemma addLocalEdit_persists_witness :
  loadLocalEdits parse_sample
    (store (addLocalEdit stringify_sample "it_1" "notes" (JStr "fragile")
              "2025-01-06T00:00:00.000Z" (fresh_app (Overlay [] None))))
  = JArr [] ∧
  store (addLocalEdit stringify_sample "it_1" "notes" (JStr "fragile")
           "2025-01-06T00:00:00.000Z"
           (new_app (Overlay [] None) (Storage None true)))
  = Storage None true.
Proof.
  destruct (addLocalEdit_persists parse_sample stringify_sample "it_1" "notes"
              (JStr "fragile") "2025-01-06T00:00:00.000Z"
              (fresh_app (Overlay [] None))) as [Hok _].
  destruct (addLocalEdit_persists parse_sample stringify_sample "it_1" "notes"
              (JStr "fragile") "2025-01-06T00:00:00.000Z"
              (new_app (Overlay [] None) (Storage None true))) as [_ Hbad].
  split.
  - apply Hok; [reflexivity | discriminate | reflexivity].
  - apply Hbad. reflexivity.
Defined.

(** ** The filter step *)

Section FilterStepFacts.

Variable toLowerCase : string → string.
Variable str_includes : string → string → bool.
Variable chars : string → list string.
Variable number_text : Z → string.

Local Abbreviation callback := (filter_callback toLowerCase str_includes chars number_text).
Local Abbreviation step := (filter_step toLowerCase str_includes chars number_text).

Lemma filter_step_kept c its kept :
  step c its = Normal kept →
  kept `sublist_of` its ∧ ∀ item, item ∈ kept → callback c item = Normal true.
Proof.
  revert kept. induction its as [|item its IH]; intros kept; simpl.
  { intros [= <-]. split; [done|]. intros item H. by apply elem_of_nil in H. }
  destruct (callback c item) as [keep|e] eqn:Hcb; [|done].
  destruct (step c its) as [kept'|e]; [|done].
  destruct (IH kept' eq_refl) as [Hsub Hall].
  intros [= <-]. destruct keep.
  - split; [by apply sublist_skip|].
    intros x [-> | Hx]%elem_of_cons; [done | by apply Hall].
  - split; [by apply sublist_cons | done].
Qed.

Lemma people_match item name :
  people_mismatch str_includes item name = Normal false →
  (∃ l, item !! "people" = Some (JArr l) ∧ JStr name ∈ l) ∨
  (∃ s, item !! "people" = Some (JStr s) ∧ str_includes s name = true).
Proof.
  unfold people_mismatch. destruct (truthy (item !! "people")); [|done].
  destruct (item !! "people") as [[| | |s|l|]|]; try done.
  - intros [= H]. apply negb_false_iff in H. right. by exists s.
  - intros [= H]. apply negb_false_iff in H. left. exists l. split; [done|].
    apply existsb_exists in H as (x & Hx & Hsame).
    apply same_value_eq in Hsame as <-. by apply list_elem_of_In.
Qed.

Lemma filter_callback_true c item :
  callback c item = Normal true →
  (boxFilter c ≠ "" → item !! "box_id" = Some (JStr (boxFilter c))) ∧
  (categoryFilter c ≠ "" →
   item !! "category" = Some (JStr (categoryFilter c))) ∧
  (peopleFilter c ≠ "" →
   people_mismatch str_includes item (peopleFilter c) = Normal false).
Proof.
  unfold filter_callback.
  destruct (if negb _ then _ else _) as [[]|e]; try done.
  destruct (String.eqb_spec (boxFilter c) "") as [Hb | Hb]; simpl.
  - destruct (String.eqb_spec (categoryFilter c) "") as [Hc | Hc]; simpl.
    + destruct (String.eqb_spec (peopleFilter c) "") as [Hp | Hp]; simpl.
      * done.
      * destruct (people_mismatch _ _ _) as [[]|e]; done.
    + destruct (same_prop (item !! "category") _) eqn:Ec; simpl; [|done].
      apply same_prop_eq in Ec.
      destruct (String.eqb_spec (peopleFilter c) "") as [Hp | Hp]; simpl.
      * done.
      * destruct (people_mismatch _ _ _) as [[]|e]; done.
  - destruct (same_prop (item !! "box_id") _) eqn:Eb; simpl; [|done].
    apply same_prop_eq in Eb.
    destruct (String.eqb_spec (categoryFilter c) "") as [Hc | Hc]; simpl.
    + destruct (String.eqb_spec (peopleFilter c) "") as [Hp | Hp]; simpl.
      * done.
      * destruct (people_mismatch _ _ _) as [[]|e]; done.
    + destruct (same_prop (item !! "category") _) eqn:Ec; simpl; [|done].
      apply same_prop_eq in Ec.
      destruct (String.eqb_spec (peopleFilter c) "") as [Hp | Hp]; simpl.
      * done.
      * destruct (people_mismatch _ _ _) as [[]|e]; done.
Qed.

(** X15. What the filter step keeps is a subsequence of the collection, in
    the collection's order, and every item kept meets each active filter:
    its [box_id] is the selected box, its [category] the selected category,
    and its [people] is an array holding the selected name or a string that
    includes it. *)
Theorem filter_step_shows_only_matches (c : filter_controls)
    (its kept : list obj) :
  filter_step toLowerCase str_includes chars number_text c its = Normal kept →
  kept `sublist_of` its ∧
  ∀ item, item ∈ kept →
    (boxFilter c ≠ "" → item !! "box_id" = Some (JStr (boxFilter c))) ∧
    (categoryFilter c ≠ "" →
     item !! "category" = Some (JStr (categoryFilter c))) ∧
    (peopleFilter c ≠ "" →
     (∃ l, item !! "people" = Some (JArr l) ∧ JStr (peopleFilter c) ∈ l) ∨
     (∃ s, item !! "people" = Some (JStr s) ∧
           str_includes s (peopleFilter c) = true)).
Proof.
  intros Hrun. destruct (filter_step_kept c its kept Hrun) as [Hsub Hall].
  split; [done|]. intros item Hin.
  destruct (filter_callback_true c item (Hall item Hin)) as (Hb & Hc & Hp).
  split; [done|]. split; [done|].
  intros Hne. by apply people_match, Hp.
Qed.

(** X16. With an empty search box and no person selected the filter step
    never throws, and it keeps exactly the items whose [box_id] and
    [category] are the selected ones (all items when nothing is
    selected). *)
Theorem filter_step_by_box_and_category (c : filter_controls)
    (its : list obj) :
  toLowerCase (searchInput c) = "" →
  peopleFilter c = "" →
  filter_step toLowerCase str_includes chars number_text c its
  = Normal (List.filter (box_category_match c) its).
Proof.
  intros Hs Hp. induction its as [|item its IH]; simpl; [done|].
  rewrite IH.
  assert (callback c item = Normal (box_category_match c item)) as ->; [|done].
  unfold filter_callback, box_category_match. rewrite Hs, Hp. simpl.
  destruct (String.eqb (boxFilter c) ""); simpl.
  - destruct (String.eqb (categoryFilter c) ""); simpl; [done|].
    by destruct (same_prop (item !! "category") _).
  - destruct (same_prop (item !! "box_id") _); simpl; [|done].
    destruct (String.eqb (categoryFilter c) ""); simpl; [done|].
    by destruct (same_prop (item !! "category") _).
Qed.

Lemma filter_callback_true_iff c item :
  callback c item = Normal true ↔
  (toLowerCase (searchInput c) = "" ∨
   ∃ text, searchable_text toLowerCase chars number_text item = Normal text ∧
           str_includes text (toLowerCase (searchInput c)) = true) ∧
  box_category_match c item = true ∧
  (peopleFilter c = "" ∨
   people_mismatch str_includes item (peopleFilter c) = Normal false).
Proof.
  unfold filter_callback, box_category_match.
  set (term := toLowerCase (searchInput c)).
  set (box_ok := String.eqb (boxFilter c) "" || same_prop (item !! "box_id") _).
  set (cat_ok := String.eqb (categoryFilter c) ""
                 || same_prop (item !! "category") _).
  assert (Hbox : negb (String.eqb (boxFilter c) "")
                 && negb (same_prop (item !! "box_id")
                                    (Some (JStr (boxFilter c))))
                 = negb box_ok).
  { unfold box_ok. by rewrite negb_orb. }
  assert (Hcat : negb (String.eqb (categoryFilter c) "")
                 && negb (same_prop (item !! "category")
                                    (Some (JStr (categoryFilter c))))
                 = negb cat_ok).
  { unfold cat_ok. by rewrite negb_orb. }
  rewrite Hbox, Hcat. clearbody box_ok cat_ok.
  destruct (String.eqb_spec term "") as [Ht | Ht]; simpl.
  - destruct box_ok, cat_ok; simpl;
      try (split; [done | intros (_ & [=] & _)]).
    destruct (String.eqb_spec (peopleFilter c) "") as [Hp | Hp]; simpl.
    + split; [intros _|done]. split; [by left|]. split; [done | by left].
    + destruct (people_mismatch _ _ _) as [[]|e]; simpl.
      * split; [done|]. by intros (_ & _ & [? | [=]]).
      * split; [intros _|done]. split; [by left|]. split; [done | by right].
      * split; [done|]. by intros (_ & _ & [? | [=]]).
  - destruct (searchable_text _ _ _ item) as [text|e]; simpl.
    + destruct (str_includes text term) eqn:Hinc.
      * destruct box_ok, cat_ok; simpl;
          try (split; [done | intros (_ & [=] & _)]).
        destruct (String.eqb_spec (peopleFilter c) "") as [Hp | Hp]; simpl.
        -- split; [intros _|done]. split; [right; by exists text|].
           split; [done | by left].
        -- destruct (people_mismatch _ _ _) as [[]|e]; simpl.
           ++ split; [done|]. by intros (_ & _ & [? | [=]]).
           ++ split; [intros _|done]. split; [right; by exists text|].
              split; [done | by right].
           ++ split; [done|]. by intros (_ & _ & [? | [=]]).
      * split; [done|]. intros ([? | (text' & [= <-] & Hinc')] & _); [done|].
        congruence.
    + split; [done|]. by intros ([? | (text' & [=] & _)] & _).
Qed.

(** X17. Narrowing never brings items back.  Let the controls [c] differ
    from [c'] only in that some of them are empty (an empty search box, an
    unselected drop-down).  When both filter steps complete, every item
    kept under [c'] is kept under [c], in the same order. *)
Theorem filter_step_narrows (c c' : filter_controls)
    (its kept kept' : list obj) :
  (toLowerCase (searchInput c) = "" ∨ searchInput c = searchInput c') →
  (boxFilter c = "" ∨ boxFilter c = boxFilter c') →
  (categoryFilter c = "" ∨ categoryFilter c = categoryFilter c') →
  (peopleFilter c = "" ∨ peopleFilter c = peopleFilter c') →
  filter_step toLowerCase str_includes chars number_text c its = Normal kept →
  filter_step toLowerCase str_includes chars number_text c' its = Normal kept' →
  kept' `sublist_of` kept.
Proof.
  intros Hs Hb Hc Hp.
  assert (Hmono : ∀ item, callback c' item = Normal true →
                          callback c item = Normal true).
  { intros item. rewrite !filter_callback_true_iff.
    intros (Hs' & Hbc' & Hp'). split; [|split].
    - destruct Hs as [Hs | Hs]; [by left|]. rewrite Hs.
      destruct Hs' as [Hs' | Hs']; [left | right]; done.
    - unfold box_category_match in *.
      apply andb_true_iff in Hbc' as [Hb' Hc']. apply andb_true_iff. split.
      + destruct Hb as [-> | ->]; [done|]. done.
      + destruct Hc as [-> | ->]; [done|]. done.
    - destruct Hp as [Hp | Hp]; [by left|]. rewrite Hp.
      destruct Hp' as [Hp' | Hp']; [left | right]; done. }
  revert kept kept'. induction its as [|item its IH]; intros kept kept'; simpl.
  { by intros [= <-] [= <-]. }
  specialize (Hmono item).
  destruct (callback c item) as [keep|e]; [|done].
  destruct (callback c' item) as [keep'|e']; [|done].
  destruct (step c its) as [k|e]; [|done].
  destruct (step c' its) as [k'|e']; [|done].
  specialize (IH k k' eq_refl eq_refl).
  intros [= <-] [= <-]. destruct keep'.
  - assert (keep = true) as -> by (by injection (Hmono eq_refl)).
    by apply sublist_skip.
  - destruct keep; [by apply sublist_cons | done].
Qed.

End FilterStepFacts.

Lemma filter_step_shows_only_matches_witness :
  filter_step ascii_lower ascii_includes ascii_chars decimal
    (Controls "letter" "DO3M" "" "Gloria Mejia") [it_6; it_7; it_1]
  = Normal [it_6] ∧
  [it_6] `sublist_of` [it_6; it_7; it_1] ∧
  it_6 !! "box_id" = Some (JStr "DO3M").
Proof.
  assert (H : filter_step ascii_lower ascii_includes ascii_chars decimal
                (Controls "letter" "DO3M" "" "Gloria Mejia") [it_6; it_7; it_1]
              = Normal [it_6]) by reflexivity.
  split; [exact H|].
  destruct (filter_step_shows_only_matches ascii_lower ascii_includes
              ascii_chars decimal _ _ _ H) as [Hsub Hall].
  split; [exact Hsub|].
  destruct (Hall it_6) as (Hb & _).
  - apply list_elem_of_singleton. reflexivity.
  - apply Hb. discriminate.
Defined.

Lemma filter_step_by_box_and_category_witness :
  filter_step ascii_lower ascii_includes ascii_chars decimal
    (Controls "" "KT2L" "" "") [it_6; it_7; it_1; it_2]
  = Normal [it_7; it_2] ∧
  filter_step ascii_lower ascii_includes ascii_chars decimal
    (Controls "" "" "" "") [it_6; it_7; it_1; it_2]
  = Normal [it_6; it_7; it_1; it_2].
Proof.
  split.
  - apply (filter_step_by_box_and_category ascii_lower ascii_includes
             ascii_chars decimal (Controls "" "KT2L" "" "")
             [it_6; it_7; it_1; it_2]); reflexivity.
  - apply (filter_step_by_box_and_category ascii_lower ascii_includes
             ascii_chars decimal (Controls "" "" "" "")
             [it_6; it_7; it_1; it_2]); reflexivity.
Defined.

Lemma filter_step_narrows_witness :
  [it_6] `sublist_of` [it_6; it_1].
Proof.
  apply (filter_step_narrows ascii_lower ascii_includes ascii_chars decimal
           (Controls "" "DO3M" "" "")
           (Controls "Letter" "DO3M" "Documents" "")
           [it_6; it_7; it_1] [it_6; it_1] [it_6]);
    try reflexivity; try (by left); by right.
Defined.

(** ** Labels and removal counts *)

Lemma str_or_nonempty x d : d ≠ "" → str_or x d ≠ "".
Proof.
  intros Hd. unfold str_or. destruct x as [s|]; [|done].
  by destruct (String.eqb_spec s "").
Qed.

(** X18. Once the base snapshot is loaded, the version and the
    last-updated label are never blank, whatever the base and the updates
    index hold or lack; without a base nothing is assigned. *)
Theorem labels_never_blank (w : world) (a : app) :
  (∀ b, base_file w = Some b →
        catalogVersion (loadCatalogData w a) ≠ "" ∧
        lastUpdated (loadCatalogData w a) ≠ "") ∧
  (base_file w = None →
   catalogVersion (loadCatalogData w a) = catalogVersion a ∧
   lastUpdated (loadCatalogData w a) = lastUpdated a ∧
   items (loadCatalogData w a) = items a).
Proof.
  split.
  - intros b Hb. unfold loadCatalogData. rewrite Hb.
    destruct (index_file w) as [idx|].
    + destruct (load_deltas _ _ _ _) as [its ws]. simpl.
      destruct (extract_filters _ _) as [fs [[]|e]]; simpl;
        split; by apply str_or_nonempty.
    + simpl. destruct (extract_filters _ _) as [fs [[]|e]]; simpl;
        split; by apply str_or_nonempty.
  - intros Hb. by rewrite (loadCatalogData_no_base w a Hb).
Qed.

Lemma labels_never_blank_witness :
  catalogVersion (loadCatalogData world_people (fresh_app (Overlay [] None)))
  ≠ "" ∧
  lastUpdated (loadCatalogData world_people (fresh_app (Overlay [] None)))
  ≠ "".
Proof.
  destruct (labels_never_blank world_people (fresh_app (Overlay [] None)))
    as [Hloaded _].
  apply (Hloaded (BaseDoc (Some [it_4]) (Some "1.0.0"))). reflexivity.
Defined.

Lemma remove_stage_count x rs its :
  count_id x (forEach apply_remove rs its).1
  = count_id x its - length (filter (fun y => y = x) rs).
Proof.
  revert its. induction rs as [|y rs IH]; intros its.
  { simpl. lia. }
  rewrite forEach_remove_cons, IH, apply_remove_count, filter_cons.
  destruct (String.eqb_spec y x) as [-> | Hne].
  - rewrite decide_True by done. simpl. lia.
  - by rewrite decide_False.
Qed.

(** X19. Each occurrence of an id in [removed] takes out one item that
    carries it: with ids stable, when [mergeDelta] completes, the number of
    items with id [x] is the number before the [removed] stage (in the
    collection and among the added records) less the number of times [x]
    is listed, and never below zero. *)
Theorem removed_takes_one_item_per_entry (d : delta) (its its' : list obj)
    (x : string) :
  delta_keeps_ids d = true →
  mergeDelta d its = (its', Normal tt) →
  count_id x its'
  = count_id x its + count_id x (default [] (added d))
    - length (filter (fun y => y = x) (default [] (removed d))).
Proof.
  unfold delta_keeps_ids. intros Hk Hrun. rewrite mergeDelta_stages in Hrun.
  pose proof (update_stage_ids _ (its ++ default [] (added d)) Hk) as Hids.
  destruct (forEach apply_update _ _) as [its2 [[]|e]]; [|done].
  simpl in Hids.
  assert (its' = (forEach apply_remove (default [] (removed d)) its2).1) as ->
    by by rewrite Hrun.
  by rewrite remove_stage_count, (count_id_ids x _ _ Hids), count_id_app.
Qed.

Lemma removed_takes_one_item_per_entry_witness :
  count_id "it_1" (mergeDelta delta_add_remove [it_1]).1 = 1 + 1 - 1.
Proof.
  apply (removed_takes_one_item_per_entry delta_add_remove [it_1]
           (mergeDelta delta_add_remove [it_1]).1 "it_1");
    reflexivity.
Defined.
